(** * pyroute2 DHCPv4 transport core: transaction ids, packet filter,
      frame codec and lease timers

    A shallow embedding of

    - [pyroute2/dhcp/xids.py]        (module [Xid]),
    - [pyroute2/dhcp/dhcp4socket.py] (module [DHCP4Socket], with the opcode
      constants in [BPF] and the kernel's filter engine in [Engine]),
    - [pyroute2/dhcp/timers.py]      (module [Timers], with the event loop),

    followed by the properties proved about them.  Python integers are
    unbounded, so they are [Z]; [&] and [|] are [Z.land] and [Z.lor], which
    agree with Python on negative numbers too (infinite two's complement).
    Bytes objects are [list Z].  Raised exceptions are the [Raise] branch of
    [result]. *)

From Stdlib Require Import ZArith QArith Lia.
From stdpp Require Import base list strings.

Local Open Scope Z_scope.

(** ** Exceptions *)

Inductive exn : Type :=
| AssertionError
| ValueError
| AttributeError
| StructError.

Inductive result (A : Type) : Type :=
| Ok (a : A)
| Raise (e : exn).
Arguments Ok {A} a.
Arguments Raise {A} e.

#[global] Instance result_ret : MRet result := fun A a => Ok a.
#[global] Instance result_bind : MBind result := fun A B f r =>
  match r with
  | Ok a => f a
  | Raise e => Raise e
  end.

(** ** xids.py *)

Module Xid.

(** [random.randint(a, b)] is [a + randbelow(b - a + 1)]: a uniform draw from
    the whole closed interval.  [entropy] is the raw draw of the generator. *)
Definition randint (a b entropy : Z) : Z := a + entropy mod (b - a + 1).

Definition random_xid_prefix (entropy : Z) : Z :=
  randint 0x00000010 0xFFFFFFF0 entropy.

Record Xid : Type := mkXid { _value : Z }.

(** [Xid.__init__]: [value] is the optional argument; [entropy] is consumed
    only when no value is given. *)
Definition __init__ (value : option Z) (entropy : Z) : result Xid :=
  match value with
  | None => Ok (mkXid (random_xid_prefix entropy))
  | Some v =>
      if v <? 0xFFFFFFFF then Ok (mkXid v) else Raise AssertionError
  end.

Definition random_part (self : Xid) : Z := Z.land (_value self) 0xFFFFFFF0.

Definition __index__ (self : Xid) : Z := _value self.

Definition matches (self received_xid : Xid) : bool :=
  random_part self =? random_part received_xid.

Definition __eq__ (self : Xid) (value : Z) : bool := _value self =? value.

(** [for_state]: the constructor is called with an explicit value, so no
    random draw is consumed. *)
Definition for_state (self : Xid) (state : Z) : result Xid :=
  __init__ (Some (Z.lor (random_part self) state)) 0.

Section State.

(** [pyroute2.dhcp.fsm.State] is an [IntEnum] declared outside these sources;
    [State_values] are the integer values of its members. *)
Variable State_values : list Z.

(** [State(v)]: the member whose value is [v], else [ValueError]. *)
Definition State (v : Z) : result Z :=
  if bool_decide (v ∈ State_values) then Ok v else Raise ValueError.

Definition request_state (self : Xid) : result (option Z) :=
  match State (Z.land (_value self) 0xF) with
  | Ok s => Ok (Some s)
  | Raise ValueError => Ok None
  | Raise e => Raise e
  end.

End State.

End Xid.

(** ** dhcp4socket.py: the packet filter *)

Module BPF.

(** Modelled from the spec: [pyroute2.ext.bpf.BPF] is not among these
    sources.  Its members are the opcode fields of classic BPF
    (instruction class, size, addressing mode, jump test, operand source)
    that the filter instructions of section 4.1 are assembled from. *)
Definition LD : Z := 0x00.
Definition LDX : Z := 0x01.
Definition ST : Z := 0x02.
Definition STX : Z := 0x03.
Definition ALU : Z := 0x04.
Definition JMP : Z := 0x05.
Definition RET : Z := 0x06.
Definition MISC : Z := 0x07.
Definition W : Z := 0x00.
Definition H : Z := 0x08.
Definition B : Z := 0x10.
Definition IMM : Z := 0x00.
Definition ABS : Z := 0x20.
Definition IND : Z := 0x40.
Definition MEM : Z := 0x60.
Definition LEN : Z := 0x80.
Definition MSH : Z := 0xa0.
Definition JA : Z := 0x00.
Definition JEQ : Z := 0x10.
Definition JGT : Z := 0x20.
Definition JGE : Z := 0x30.
Definition JSET : Z := 0x40.
Definition K : Z := 0x00.
Definition X : Z := 0x08.
Definition A : Z := 0x10.
Definition TAX : Z := 0x00.
Definition TXA : Z := 0x80.

End BPF.

(** ** The filter engine

    The kernel's interpreter of classic BPF, restricted to the loads, jumps
    and returns a socket filter such as the one below is made of. *)

Module Engine.

(** One filter instruction, [[code, jt, jf, k]] in the source. *)
Definition insn : Type := (Z * Z * Z * Z)%type.

(** What the kernel hands to a socket filter: the frame bytes and the
    ancillary data the program can ask for. *)
Record skb : Type := mkSkb {
  vlan_tag_present : bool;
  data : list Z;
}.

(** The [k] field is a 32-bit unsigned word once the program is packed. *)
Definition u32 (k : Z) : Z := k mod 2 ^ 32.

Definition load_byte (d : list Z) (off : Z) : option Z :=
  if 0 <=? off then d !! Z.to_nat off else None.

Definition load_half (d : list Z) (off : Z) : option Z :=
  b0 ← load_byte d off; b1 ← load_byte d (off + 1); Some (b0 * 256 + b1).

Definition load_word (d : list Z) (off : Z) : option Z :=
  h0 ← load_half d off; h1 ← load_half d (off + 2); Some (h0 * 65536 + h1).

Definition load_sized (size : Z) (d : list Z) (off : Z) : option Z :=
  if size =? BPF.W then load_word d off
  else if size =? BPF.H then load_half d off
  else if size =? BPF.B then load_byte d off
  else None.

(** Absolute offsets from [SKF_AD_OFF] up (as unsigned words) address the
    ancillary data instead of the frame. *)
Definition ancillary_base : Z := u32 (-0x1000).

Definition load_ancillary (pkt : skb) (idx : Z) : option Z :=
  if idx =? 48 then Some (if vlan_tag_present pkt then 1 else 0) else None.

(** The result of one instruction. *)
Inductive outcome : Type :=
| Continue (a x : Z) (pc : nat)
| Return (v : Z)
| Fault        (* a load outside the frame: the engine returns zero *)
| Unsupported. (* an instruction outside this model *)

Definition of_load (o : option Z) (k : Z -> outcome) : outcome :=
  match o with
  | Some v => k v
  | None => Fault
  end.

Definition jump (pc : nat) (off : Z) : nat := (pc + 1 + Z.to_nat off)%nat.

Definition step (pkt : skb) (i : insn) (a x : Z) (pc : nat) : outcome :=
  let '(code, jt, jf, k) := i in
  let k := u32 k in
  let class := Z.land code 0x07 in
  let size := Z.land code 0x18 in
  let mode := Z.land code 0xe0 in
  if class =? BPF.LD then
    if mode =? BPF.ABS then
      if ancillary_base <=? k then
        match load_ancillary pkt (k - ancillary_base) with
        | Some v => if size =? BPF.B then Continue v x (pc + 1) else Unsupported
        | None => Unsupported
        end
      else of_load (load_sized size (data pkt) k)
             (fun v => Continue v x (pc + 1))
    else if mode =? BPF.IND then
      of_load (load_sized size (data pkt) (u32 (x + k)))
        (fun v => Continue v x (pc + 1))
    else if mode =? BPF.IMM then Continue k x (pc + 1)
    else if mode =? BPF.LEN then Continue (Z.of_nat (length (data pkt))) x (pc + 1)
    else Unsupported
  else if class =? BPF.LDX then
    if mode =? BPF.MSH then
      if size =? BPF.B then
        of_load (load_byte (data pkt) k)
          (fun v => Continue a (4 * Z.land v 0xf) (pc + 1))
      else Unsupported
    else if mode =? BPF.IMM then Continue a k (pc + 1)
    else if mode =? BPF.LEN then Continue a (Z.of_nat (length (data pkt))) (pc + 1)
    else Unsupported
  else if class =? BPF.JMP then
    let op := Z.land code 0xf0 in
    let operand := if Z.land code 0x08 =? BPF.X then x else k in
    if op =? BPF.JA then Continue a x (jump pc k)
    else if op =? BPF.JEQ then
      Continue a x (jump pc (if a =? operand then jt else jf))
    else if op =? BPF.JGT then
      Continue a x (jump pc (if operand <? a then jt else jf))
    else if op =? BPF.JGE then
      Continue a x (jump pc (if operand <=? a then jt else jf))
    else if op =? BPF.JSET then
      Continue a x (jump pc (if Z.land a operand =? 0 then jf else jt))
    else Unsupported
  else if class =? BPF.RET then
    if size =? BPF.K then Return k
    else if size =? BPF.A then Return a
    else Unsupported
  else if class =? BPF.MISC then
    if Z.land code 0xf8 =? BPF.TAX then Continue a a (pc + 1)
    else if Z.land code 0xf8 =? BPF.TXA then Continue x x (pc + 1)
    else Unsupported
  else Unsupported.

(** How a run ends. *)
Inductive final : Type :=
| Returned (pc : nat) (v : Z)   (* a RET instruction at [pc] *)
| Faulted (pc : nat)            (* zero returned by the engine at the load at [pc] *)
| Stuck (pc : nat)              (* no instruction at [pc], or unsupported *)
| OutOfFuel.

(** Runs at most [fuel] instructions from [pc]; returns the indices of the
    instructions executed, in order, and how the run ended. *)
Fixpoint exec (fuel : nat) (prog : list insn) (pkt : skb) (a x : Z) (pc : nat)
  : list nat * final :=
  match fuel with
  | O => ([], OutOfFuel)
  | S fuel' =>
      match prog !! pc with
      | None => ([], Stuck pc)
      | Some i =>
          match step pkt i a x pc with
          | Continue a' x' pc' =>
              let '(tr, f) := exec fuel' prog pkt a' x' pc' in (pc :: tr, f)
          | Return v => ([pc], Returned pc v)
          | Fault => ([pc], Faulted pc)
          | Unsupported => ([pc], Stuck pc)
          end
      end
  end.

(** The length the filter tells the kernel to keep: zero drops the frame. *)
Definition verdict (f : final) : option Z :=
  match f with
  | Returned _ v => Some v
  | Faulted _ => Some 0
  | Stuck _ | OutOfFuel => None
  end.

(** A forward-only program needs no more steps than it has instructions. *)
Definition run (prog : list insn) (pkt : skb) : list nat * final :=
  exec (length prog) prog pkt 0 0 0.

(** The static check on jumps: from the instruction at [pc], control can
    only go to a later instruction of the program. *)
Definition insn_forward (len pc : nat) (i : insn) : bool :=
  let '(code, jt, jf, k) := i in
  let class := Z.land code 0x07 in
  if class =? BPF.RET then true
  else if class =? BPF.JMP then
    if Z.land code 0xf0 =? BPF.JA then (jump pc (u32 k) <? len)%nat
    else (jump pc jt <? len)%nat && (jump pc jf <? len)%nat
  else (pc + 1 <? len)%nat.

Definition jumps_forward (prog : list insn) : bool :=
  forallb (fun '(pc, i) => insn_forward (length prog) pc i)
    (imap pair prog).

(** Accepting keeps the whole frame; dropping keeps nothing. *)
Definition accept_len : Z := 65535.
Definition drop_len : Z := 0.

End Engine.

Module DHCP4Socket.
Import Engine.

Definition UDP_HEADER_SIZE : Z := 8.
Definition IPV4_HEADER_SIZE : Z := 20.
Definition SKF_AD_OFF : Z := -0x1000.
Definition SKF_AD_VLAN_TAG_PRESENT : Z := 48.

(** [socket.IPPROTO_UDP] *)
Definition IPPROTO_UDP : Z := 17.

(** Modelled from the spec: [pyroute2.compat.ETHERTYPE_IP] is not among these
    sources; the Ethertype of IPv4 is 0x0800 (section 4.1, step 2). *)
Definition ETHERTYPE_IP : Z := 0x0800.

Definition listen_udp_port (port : Z) : list insn :=
  [ (* Load vlan presence indicator *)
    (BPF.LD + BPF.B + BPF.ABS, 0, 0, SKF_AD_OFF + SKF_AD_VLAN_TAG_PRESENT);
    (* bail out immediately if there is one and we don't want it *)
    (BPF.JMP + BPF.JEQ + BPF.K, 0, 10, 0);
    (* Load eth type at offset 12 and check it's IPv4 *)
    (BPF.LD + BPF.H + BPF.ABS, 0, 0, 12);
    (BPF.JMP + BPF.JEQ + BPF.K, 0, 8, 0x0800);
    (* Load IP proto at offset 23 and check it's UDP *)
    (BPF.LD + BPF.B + BPF.ABS, 0, 0, 23);
    (BPF.JMP + BPF.JEQ + BPF.K, 0, 6, IPPROTO_UDP);
    (* load frag offset at offset 20 *)
    (BPF.LD + BPF.H + BPF.ABS, 0, 0, 20);
    (* Check mask & drop fragmented packets *)
    (BPF.JMP + BPF.JSET + BPF.K, 4, 0, 8191);
    (* load ip header length at offset 14 *)
    (BPF.LDX + BPF.B + BPF.MSH, 0, 0, 14);
    (* load udp dport from that offset + 16 and check it *)
    (BPF.LD + BPF.H + BPF.IND, 0, 0, 16);
    (BPF.JMP + BPF.JEQ + BPF.K, 0, 1, port);
    (* allow packet *)
    (BPF.RET + BPF.K, 0, 0, 65535);
    (* drop packet *)
    (BPF.RET + BPF.K, 0, 0, 0) ].

(** The filter as section 4.1 of the specification words it: the checks in
    their order, each naming the instructions run up to its decision. *)
Definition filter_spec (port : Z) (pkt : skb) : list nat * final :=
  if vlan_tag_present pkt then ([0; 1; 12]%nat, Returned 12 drop_len)
  else
    match load_half (data pkt) 12 with
    | None => ([0; 1; 2]%nat, Faulted 2)
    | Some ethertype =>
    if negb (ethertype =? ETHERTYPE_IP) then
      ([0; 1; 2; 3; 12]%nat, Returned 12 drop_len)
    else
    match load_byte (data pkt) 23 with
    | None => ([0; 1; 2; 3; 4]%nat, Faulted 4)
    | Some proto =>
    if negb (proto =? IPPROTO_UDP) then
      ([0; 1; 2; 3; 4; 5; 12]%nat, Returned 12 drop_len)
    else
    match load_half (data pkt) 20 with
    | None => ([0; 1; 2; 3; 4; 5; 6]%nat, Faulted 6)
    | Some frag =>
    if negb (Z.land frag 8191 =? 0) then
      ([0; 1; 2; 3; 4; 5; 6; 7; 12]%nat, Returned 12 drop_len)
    else
    match load_byte (data pkt) 14 with
    | None => ([0; 1; 2; 3; 4; 5; 6; 7; 8]%nat, Faulted 8)
    | Some verlen =>
    match load_half (data pkt) (4 * Z.land verlen 0xf + 16) with
    | None => ([0; 1; 2; 3; 4; 5; 6; 7; 8; 9]%nat, Faulted 9)
    | Some dport =>
    if dport =? port then
      ([0; 1; 2; 3; 4; 5; 6; 7; 8; 9; 10; 11]%nat, Returned 11 accept_len)
    else
      ([0; 1; 2; 3; 4; 5; 6; 7; 8; 9; 10; 12]%nat, Returned 12 drop_len)
    end end end end end.

(** The offsets of the bytes the filter can read in a frame: the fixed ones,
    and the two of the destination port, which the low nibble of byte 14
    places. *)
Definition read_offsets (d : list Z) : list nat :=
  [12; 13; 14; 20; 21; 23]%nat
  ++ match load_byte d 14 with
     | Some verlen =>
         [Z.to_nat (4 * Z.land verlen 0xf + 16);
          Z.to_nat (4 * Z.land verlen 0xf + 17)]
     | None => []
     end.

(** *** Wire formats *)

(** Modelled from the spec: the header classes of [pyroute2.protocols]
    ([ethmsg], [ip4msg], [udpmsg], [udp4_pseudo_header]) and the [csum] helper
    of the raw socket are not among these sources.  The layouts are those
    sections 4.1, 4.3 and 4.4 describe: a 14-byte Ethernet header with the
    Ethertype at offset 12; an IPv4 header whose length is four times the low
    nibble of its first byte, with flags and fragment offset at +6, the
    protocol at +9 and the addresses at +12 and +16; an 8-byte UDP header.
    Multi-byte fields are big-endian.  Packing a value that does not fit its
    field raises, as [struct.pack] does; decoding a buffer that is too short
    for a layer raises [ValueError]. *)
Definition is_byte (b : Z) : bool := (0 <=? b) && (b <? 256).

Definition pack_u8 (v : Z) : result (list Z) :=
  if is_byte v then Ok [v] else Raise StructError.

Definition pack_u16 (v : Z) : result (list Z) :=
  if (0 <=? v) && (v <? 65536) then Ok [v / 256; v mod 256]
  else Raise StructError.

Definition pack_addr (n : nat) (a : list Z) : result (list Z) :=
  if (length a =? n)%nat && forallb is_byte a then Ok a
  else Raise StructError.

Definition unpack_u16 (b : list Z) : Z :=
  match b with
  | [hi; lo] => hi * 256 + lo
  | _ => 0
  end.

Definition unpack_u8 (b : list Z) : Z :=
  match b with
  | [v] => v
  | _ => 0
  end.

(** [buf[off : off + n]], raising when the buffer ends before [off + n]. *)
Definition slice (buf : list Z) (off n : nat) : result (list Z) :=
  if (off + n <=? length buf)%nat then Ok (take n (drop off buf))
  else Raise ValueError.

Record ethmsg : Type := mkEth {
  eth_dst_f : list Z;
  eth_src_f : list Z;
  eth_type_f : Z;
}.

Definition ethmsg_encode (m : ethmsg) : result (list Z) :=
  d ← pack_addr 6 (eth_dst_f m);
  s ← pack_addr 6 (eth_src_f m);
  t ← pack_u16 (eth_type_f m);
  Ok (d ++ s ++ t).

(** Decoders return the message and the offset of the next layer. *)
Definition ethmsg_decode (buf : list Z) (off : nat) : result (ethmsg * nat) :=
  d ← slice buf off 6;
  s ← slice buf (off + 6) 6;
  t ← slice buf (off + 12) 2;
  Ok (mkEth d s (unpack_u16 t), (off + 14)%nat).

Record ip4msg : Type := mkIp4 {
  ip_verlen : Z;
  ip_dsf : Z;
  ip_len : Z;
  ip_id : Z;
  ip_flags : Z;
  ip_ttl : Z;
  ip_proto : Z;
  ip_csum : Z;
  ip_src_f : list Z;
  ip_dst_f : list Z;
}.

Definition ip4msg_encode (m : ip4msg) : result (list Z) :=
  verlen ← pack_u8 (ip_verlen m);
  dsf ← pack_u8 (ip_dsf m);
  len ← pack_u16 (ip_len m);
  id ← pack_u16 (ip_id m);
  flags ← pack_u16 (ip_flags m);
  ttl ← pack_u8 (ip_ttl m);
  proto ← pack_u8 (ip_proto m);
  csum ← pack_u16 (ip_csum m);
  src ← pack_addr 4 (ip_src_f m);
  dst ← pack_addr 4 (ip_dst_f m);
  Ok (verlen ++ dsf ++ len ++ id ++ flags ++ ttl ++ proto ++ csum
        ++ src ++ dst).

Definition ip4msg_decode (buf : list Z) (off : nat) : result (ip4msg * nat) :=
  verlen ← slice buf off 1;
  dsf ← slice buf (off + 1) 1;
  len ← slice buf (off + 2) 2;
  id ← slice buf (off + 4) 2;
  flags ← slice buf (off + 6) 2;
  ttl ← slice buf (off + 8) 1;
  proto ← slice buf (off + 9) 1;
  csum ← slice buf (off + 10) 2;
  src ← slice buf (off + 12) 4;
  dst ← slice buf (off + 16) 4;
  let hdr_len := Z.to_nat (4 * Z.land (unpack_u8 verlen) 0xf) in
  if (hdr_len <? 20)%nat then Raise ValueError
  else
    _ ← slice buf off hdr_len;
    Ok (mkIp4 (unpack_u8 verlen) (unpack_u8 dsf) (unpack_u16 len)
          (unpack_u16 id) (unpack_u16 flags) (unpack_u8 ttl)
          (unpack_u8 proto) (unpack_u16 csum) src dst,
        (off + hdr_len)%nat).

Record udpmsg : Type := mkUdp {
  udp_sport : Z;
  udp_dport : Z;
  udp_len : Z;
  udp_csum : Z;
}.

Definition udpmsg_encode (m : udpmsg) : result (list Z) :=
  sp ← pack_u16 (udp_sport m);
  dp ← pack_u16 (udp_dport m);
  len ← pack_u16 (udp_len m);
  csum ← pack_u16 (udp_csum m);
  Ok (sp ++ dp ++ len ++ csum).

Definition udpmsg_decode (buf : list Z) (off : nat) : result (udpmsg * nat) :=
  sp ← slice buf off 2;
  dp ← slice buf (off + 2) 2;
  len ← slice buf (off + 4) 2;
  csum ← slice buf (off + 6) 2;
  Ok (mkUdp (unpack_u16 sp) (unpack_u16 dp) (unpack_u16 len)
        (unpack_u16 csum), (off + 8)%nat).

Record udp4_pseudo_header : Type := mkPseudo {
  ph_src : list Z;
  ph_dst : list Z;
  ph_len : Z;
}.

Definition udp4_pseudo_header_encode (m : udp4_pseudo_header)
  : result (list Z) :=
  src ← pack_addr 4 (ph_src m);
  dst ← pack_addr 4 (ph_dst m);
  pad ← pack_u8 0;
  proto ← pack_u8 IPPROTO_UDP;
  len ← pack_u16 (ph_len m);
  Ok (src ++ dst ++ pad ++ proto ++ len).

(** The one's-complement sum of the big-endian 16-bit words of [d], an odd
    last byte being padded with zero. *)
Fixpoint sum16 (d : list Z) : Z :=
  match d with
  | hi :: lo :: rest => hi * 256 + lo + sum16 rest
  | [hi] => hi * 256
  | [] => 0
  end.

Definition csum (d : list Z) : Z :=
  let s := sum16 d in
  let s := Z.shiftr s 16 + Z.land s 0xFFFF in
  let s := s + Z.shiftr s 16 in
  Z.land (Z.lnot s) 0xFFFF.

(** *** The DHCP payload *)

(** The DHCP message codec ([pyroute2.dhcp.dhcp4msg]) is an interface here:
    a payload type with its [chaddr] field, and its encoder and decoder. *)
Class DHCP4Msg : Type := {
  dhcp4msg : Type;
  chaddr : dhcp4msg -> option (list Z);
  set_chaddr : list Z -> dhcp4msg -> dhcp4msg;
  dhcp4msg_encode : dhcp4msg -> result (list Z);
  dhcp4msg_decode : list Z -> nat -> result dhcp4msg;
}.

Section Socket.
Context `{Codec : DHCP4Msg}.

Record SentDHCPMessage : Type := mkSent {
  dhcp : dhcp4msg;
  eth_src : option (list Z);
  eth_dst : list Z;
  ip_src : list Z;
  ip_dst : list Z;
  sport : Z;
  dport : Z;
}.

Record ReceivedDHCPMessage : Type := mkReceived {
  r_dhcp : dhcp4msg;
  r_eth_src : list Z;
  r_eth_dst : list Z;
  r_ip_src : list Z;
  r_ip_dst : list Z;
  r_sport : Z;
  r_dport : Z;
}.

(** The socket: its port, the link-layer address of its interface, and the
    frames handed to [sock_sendall] so far. *)
Record AsyncDHCP4Socket : Type := mkSocket {
  port : Z;
  l2addr : list Z;
  sent : list (list Z);
}.

(** Python's truth value of [msg.eth_src]: [None] and the empty value are
    false. *)
Definition truthy (a : option (list Z)) : bool :=
  match a with
  | None | Some [] => false
  | Some _ => true
  end.

Definition set_eth_src (a : list Z) (msg : SentDHCPMessage) : SentDHCPMessage :=
  mkSent (dhcp msg) (Some a) (eth_dst msg) (ip_src msg) (ip_dst msg)
    (sport msg) (dport msg).

Definition set_dhcp (d : dhcp4msg) (msg : SentDHCPMessage) : SentDHCPMessage :=
  mkSent d (eth_src msg) (eth_dst msg) (ip_src msg) (ip_dst msg)
    (sport msg) (dport msg).

Definition add_sent (frame : list Z) (self : AsyncDHCP4Socket)
  : AsyncDHCP4Socket :=
  mkSocket (port self) (l2addr self) (sent self ++ [frame]).

(** The frame [put] builds from a message whose unset fields are filled.
    The header fields the source leaves to the defaults of [ip4msg] (version
    and header length, type of service, identification, flags, time to live)
    have standard values here; only the header length matters below. *)
Definition assemble (self : AsyncDHCP4Socket) (msg : SentDHCPMessage)
  : result (list Z) :=
  let src := default [] (eth_src msg) in
  data ← dhcp4msg_encode (dhcp msg);
  let dhcp_payload_size := Z.of_nat (length data) in
  (* UDP layer *)
  let udp := mkUdp (port self) (dport msg)
               (UDP_HEADER_SIZE + dhcp_payload_size) 0 in
  (* Pseudo UDP header, only for checksum purposes *)
  let udph := mkPseudo (ip_src msg) (ip_dst msg)
                (UDP_HEADER_SIZE + dhcp_payload_size) in
  udph_buf ← udp4_pseudo_header_encode udph;
  udp_buf ← udpmsg_encode udp;
  let udp := mkUdp (udp_sport udp) (udp_dport udp) (udp_len udp)
               (csum (udph_buf ++ udp_buf ++ data)) in
  (* IPv4 layer *)
  let ip4 := mkIp4 0x45 0
               (IPV4_HEADER_SIZE + UDP_HEADER_SIZE + dhcp_payload_size)
               0 0 128 IPPROTO_UDP 0 (ip_src msg) (ip_dst msg) in
  ip4_buf ← ip4msg_encode ip4;
  let ip4 := mkIp4 (ip_verlen ip4) (ip_dsf ip4) (ip_len ip4) (ip_id ip4)
               (ip_flags ip4) (ip_ttl ip4) (ip_proto ip4) (csum ip4_buf)
               (ip_src_f ip4) (ip_dst_f ip4) in
  (* MAC layer *)
  let eth := mkEth (eth_dst msg) src ETHERTYPE_IP in
  eth_buf ← ethmsg_encode eth;
  ip4_buf ← ip4msg_encode ip4;
  udp_buf ← udpmsg_encode udp;
  Ok (eth_buf ++ ip4_buf ++ udp_buf ++ data).

(** What a call of [put] leaves behind: what it returned or raised, the
    message object (which [put] mutates in place) and the socket. *)
Record put_result : Type := mkPut {
  returned : result SentDHCPMessage;
  msg_after : SentDHCPMessage;
  sock_after : AsyncDHCP4Socket;
}.

Definition put (self : AsyncDHCP4Socket) (msg : SentDHCPMessage)
  : put_result :=
  if negb (sport msg =? port self) then mkPut (Raise ValueError) msg self
  else
    let msg := if truthy (eth_src msg) then msg
               else set_eth_src (l2addr self) msg in
    (* auto add src addr *)
    let msg := match chaddr (dhcp msg) with
               | None =>
                   set_dhcp (set_chaddr (default [] (eth_src msg)) (dhcp msg))
                     msg
               | Some _ => msg
               end in
    match assemble self msg with
    | Ok frame => mkPut (Ok msg) msg (add_sent frame self)
    | Raise e => mkPut (Raise e) msg self
    end.

Definition _decode_msg (data : list Z) : result ReceivedDHCPMessage :=
  '(eth, off) ← ethmsg_decode data 0;
  '(ip4, off) ← ip4msg_decode data off;
  '(udp, off) ← udpmsg_decode data off;
  dhcp ← dhcp4msg_decode data off;
  Ok (mkReceived dhcp (eth_src_f eth) (eth_dst_f eth) (ip_src_f ip4)
        (ip_dst_f ip4) (udp_sport udp) (udp_dport udp)).

(** [get]: [waiting] are the frames queued for the socket, in order of
    arrival, and [errors] what has been logged.  [sock_recv(self, 4096)]
    takes the next frame, at most 4096 bytes of it; when no frame is left the
    call is still waiting for one.  A decoded message is a true value, so the
    loop ends with the first frame that decodes. *)
Inductive get_outcome : Type :=
| Got (msg : ReceivedDHCPMessage) (waiting : list (list Z))
    (errors : list exn)
| GetRaised (e : exn) (waiting : list (list Z)) (errors : list exn)
| Awaiting (errors : list exn).

Definition sock_recv (nbytes : nat) (frame : list Z) : list Z :=
  take nbytes frame.

Fixpoint get (waiting : list (list Z)) (errors : list exn) : get_outcome :=
  match waiting with
  | [] => Awaiting errors
  | frame :: waiting' =>
      let raw := sock_recv 4096 frame in
      match _decode_msg raw with
      | Ok msg => Got msg waiting' errors
      | Raise ValueError => get waiting' (errors ++ [ValueError])
      | Raise e => GetRaised e waiting' errors
      end
  end.

(** [__init__] attaches [listen_udp_port(port)] to the socket: of the frames
    on the interface, the socket is handed those the filter accepts, cut to
    the length the filter returns. *)
Definition attached_filter (self : AsyncDHCP4Socket) : list insn :=
  listen_udp_port (port self).

Definition handed (self : AsyncDHCP4Socket) (pkt : skb) : option (list Z) :=
  match verdict (run (attached_filter self) pkt).2 with
  | Some keep =>
      if 0 <? keep then Some (take (Z.to_nat keep) (data pkt)) else None
  | None => None
  end.

(** The message as [put] leaves it: [eth_src] and [chaddr] filled when they
    were unset. *)
Definition filled (self : AsyncDHCP4Socket) (msg : SentDHCPMessage)
  : SentDHCPMessage :=
  let msg := if truthy (eth_src msg) then msg
             else set_eth_src (l2addr self) msg in
  match chaddr (dhcp msg) with
  | None => set_dhcp (set_chaddr (default [] (eth_src msg)) (dhcp msg)) msg
  | Some _ => msg
  end.

(** The bytes of a frame, layer by layer. *)
Definition frame_layout (edst esrc ipsrc ipdst : list Z)
  (iplen ipcsum sp dp udplen udpcsum : Z) (payload : list Z) : list Z :=
  edst ++ esrc ++ [0x08; 0x00]
    ++ [0x45; 0; iplen / 256; iplen mod 256; 0; 0; 0; 0; 128; 17;
        ipcsum / 256; ipcsum mod 256]
    ++ ipsrc ++ ipdst
    ++ [sp / 256; sp mod 256; dp / 256; dp mod 256;
        udplen / 256; udplen mod 256; udpcsum / 256; udpcsum mod 256]
    ++ payload.

(** The payload [put] encodes: [chaddr] is filled from the source address
    when it is unset. *)
Definition payload_sent (src : list Z) (d : dhcp4msg) : dhcp4msg :=
  match chaddr d with
  | None => set_chaddr src d
  | Some _ => d
  end.

(** A well-formed address: [n] bytes. *)
Definition is_addr (n : nat) (a : list Z) : Prop :=
  length a = n /\ forallb is_byte a = true.

End Socket.

End DHCP4Socket.

(** ** timers.py *)

Module Timers.

(** *** The event loop

    [asyncio] is the environment of [timers.py].  A [TimerHandle] is an
    object shared between the loop, which runs it, and whoever holds it and
    may cancel it; the loop's list of handles is the store, and a handle is
    named by its index there.  [origin] is a ghost field: the slot a handle
    was armed for, [None] for the handles of other users of the loop.
    Times and delays, floats in the source, are rationals. *)

Inductive attr : Type := Renewal | Rebinding | Expiration.

#[global] Instance attr_eq_dec : EqDecision attr.
Proof. solve_decision. Defined.

Record TimerHandle : Type := mkHandle {
  when : Q;
  callback : nat;
  cancelled : bool;
  fired : bool;
  origin : option attr;
}.

Record EventLoop : Type := mkLoop {
  now : Q;
  scheduled : list TimerHandle;
  tasks : list nat;
}.

Definition live (h : TimerHandle) : bool := negb (cancelled h) && negb (fired h).

Definition cancel_handle (h : TimerHandle) : TimerHandle :=
  mkHandle (when h) (callback h) true (fired h) (origin h).

Definition fire_handle (h : TimerHandle) : TimerHandle :=
  mkHandle (when h) (callback h) (cancelled h) true (origin h).

Definition due (t : Q) (h : TimerHandle) : bool := live h && Qle_bool (when h) t.

(** Time passes by [dt]: every live handle whose time has come runs once,
    which starts its callback as a task. *)
Definition advance (dt : Q) (l : EventLoop) : EventLoop :=
  let t := (now l + dt)%Q in
  mkLoop t
    ((fun h => if due t h then fire_handle h else h) <$> scheduled l)
    (tasks l ++ (callback <$> filter (fun h => due t h = true) (scheduled l))).

(** *** The [Timers] dataclass *)

Record Timers : Type := mkTimers {
  renewal : option nat;
  rebinding : option nat;
  expiration : option nat;
}.

(** Modelled from the spec: [pyroute2.dhcp.leases.Lease] is not among these
    sources; [arm] reads its three time-remaining values, each of which may
    be absent. *)
Record Lease : Type := mkLease {
  renewal_in : option Q;
  rebinding_in : option Q;
  expiration_in : option Q;
}.

Definition attr_of_name (name : string) : option attr :=
  if String.eqb name "renewal" then Some Renewal
  else if String.eqb name "rebinding" then Some Rebinding
  else if String.eqb name "expiration" then Some Expiration
  else None.

Definition slot (a : attr) (self : Timers) : option nat :=
  match a with
  | Renewal => renewal self
  | Rebinding => rebinding self
  | Expiration => expiration self
  end.

Definition set_slot (a : attr) (v : option nat) (self : Timers) : Timers :=
  match a with
  | Renewal => mkTimers v (rebinding self) (expiration self)
  | Rebinding => mkTimers (renewal self) v (expiration self)
  | Expiration => mkTimers (renewal self) (rebinding self) v
  end.

Definition lease_in (a : attr) (lease : Lease) : option Q :=
  match a with
  | Renewal => renewal_in lease
  | Rebinding => rebinding_in lease
  | Expiration => expiration_in lease
  end.

(** *** State and errors

    A method runs on the [Timers] object, the running loop (the methods are
    called from coroutines, so there is one) and the logger, and either
    returns or raises; what it did before raising stays done. *)

(** The records the module's logger has been given. *)
Inductive log_record : Type :=
| Canceling (timer_name : string)
| LeaseDoesNotSet (timer_name : string)
| LeaseInThePast (timer_name : string)
| Scheduling (timer_name : string) (lease_time : Q).

Inductive level : Type := DEBUG | INFO.

Definition levelno (r : log_record) : level :=
  match r with
  | Scheduling _ _ => INFO
  | Canceling _ | LeaseDoesNotSet _ | LeaseInThePast _ => DEBUG
  end.

Record World : Type := mkWorld {
  self : Timers;
  loop : EventLoop;
  log : list log_record;
}.

Definition M (A : Type) : Type := World -> World * result A.

#[global] Instance M_ret : MRet M := fun A a w => (w, Ok a).
#[global] Instance M_bind : MBind M := fun A B f m w =>
  match m w with
  | (w', Ok a) => f a w'
  | (w', Raise e) => (w', Raise e)
  end.

(** [LOG.debug(...)] and [LOG.info(...)] *)
Definition LOG (r : log_record) : M unit := fun w =>
  (mkWorld (self w) (loop w) (log w ++ [r]), Ok tt).

(** [getattr(self, timer_name)] *)
Definition getattr (timer_name : string) : M (option nat) := fun w =>
  match attr_of_name timer_name with
  | Some a => (w, Ok (slot a (self w)))
  | None => (w, Raise AttributeError)
  end.

(** [setattr(self, timer_name, v)]; under another name it would add an
    attribute and leave the three slots alone. *)
Definition setattr (timer_name : string) (v : option nat) : M unit := fun w =>
  match attr_of_name timer_name with
  | Some a => (mkWorld (set_slot a v (self w)) (loop w) (log w), Ok tt)
  | None => (w, Ok tt)
  end.

(** [getattr(lease, f'{timer_name}_in')] *)
Definition getattr_in (lease : Lease) (timer_name : string) : M (option Q) :=
  fun w =>
  match attr_of_name timer_name with
  | Some a => (w, Ok (lease_in a lease))
  | None => (w, Raise AttributeError)
  end.

(** [timer.cancelled()] *)
Definition timer_cancelled (timer : nat) : M bool := fun w =>
  (w, Ok (from_option cancelled true (scheduled (loop w) !! timer))).

(** [timer.cancel()] *)
Definition timer_cancel (timer : nat) : M unit := fun w =>
  (mkWorld (self w)
     (mkLoop (now (loop w)) (alter cancel_handle timer (scheduled (loop w)))
        (tasks (loop w)))
     (log w),
   Ok tt).

(** [loop.call_later(delay, cb)]: a new handle, due [delay] from now. *)
Definition call_later (delay : Q) (cb : nat) (tag : option attr) : M nat :=
  fun w =>
  let l := loop w in
  (mkWorld (self w)
     (mkLoop (now l)
        (scheduled l ++ [mkHandle (now l + delay)%Q cb false false tag])
        (tasks l))
     (log w),
   Ok (length (scheduled l))).

Fixpoint for_each {A : Type} (items : list A) (body : A -> M unit) : M unit :=
  match items with
  | [] => mret tt
  | item :: rest => _ ← body item; for_each rest body
  end.

(** *** The methods *)

Definition _reset_timer (timer_name : string) : M unit :=
  t ← getattr timer_name;
  match t with
  | Some timer =>
      c ← timer_cancelled timer;
      _ ← (if negb c then
             _ ← LOG (Canceling timer_name); timer_cancel timer
           else mret tt);
      setattr timer_name None
  | None => mret tt
  end.

Definition cancel : M unit :=
  for_each ["renewal"; "rebinding"; "expiration"]%string _reset_timer.

(** [not lease_time] and [lease_time < 0.0] *)
Definition not_set (lease_time : option Q) : bool :=
  match lease_time with
  | None => true
  | Some t => Qeq_bool t 0
  end.

Definition in_the_past (t : Q) : bool := negb (Qle_bool 0 t).

Definition arm_one (lease : Lease) (item : string * nat) : M unit :=
  let '(timer_name, async_callback) := item in
  _ ← _reset_timer timer_name;
  lease_time ← getattr_in lease timer_name;
  if not_set lease_time then LOG (LeaseDoesNotSet timer_name)
  else
    let t := default 0%Q lease_time in
    if in_the_past t then LOG (LeaseInThePast timer_name)
    else
      _ ← LOG (Scheduling timer_name t);
      timer ← call_later t async_callback (attr_of_name timer_name);
      setattr timer_name (Some timer).

Definition arm (lease : Lease) (callbacks : list (string * nat)) : M unit :=
  _ ← cancel;
  for_each callbacks (arm_one lease).

(** *** The life of a [Timers] object

    It starts empty; then it is armed and cancelled, time passes, and other
    users of the loop schedule and cancel handles of their own. *)

Definition initial (l : EventLoop) : World :=
  mkWorld (mkTimers None None None) l [].

Definition foreign (l : EventLoop) : Prop :=
  Forall (fun h => origin h = None) (scheduled l).

Inductive step : World -> World -> Prop :=
| step_arm lease callbacks w :
    step w (arm lease callbacks w).1
| step_cancel w :
    step w (cancel w).1
| step_advance dt w :
    step w (mkWorld (self w) (advance dt (loop w)) (log w))
| step_other_call_later delay cb w :
    step w (call_later delay cb None w).1
| step_other_cancel i h w :
    scheduled (loop w) !! i = Some h -> origin h = None ->
    step w (timer_cancel i w).1.

Inductive steps : World -> World -> Prop :=
| steps_refl w : steps w w
| steps_step w1 w2 w3 : steps w1 w2 -> step w2 w3 -> steps w1 w3.

Definition reachable (w : World) : Prop :=
  exists l, foreign l /\ steps (initial l) w.

(** *** What the methods do to the state

    The effect of [_reset_timer] and of one round of [arm]'s loop, as
    functions on the state, for a name that is one of the three slots. *)

Definition name_of (a : attr) : string :=
  match a with
  | Renewal => "renewal"
  | Rebinding => "rebinding"
  | Expiration => "expiration"
  end.

Definition add_log (r : log_record) (w : World) : World :=
  mkWorld (self w) (loop w) (log w ++ [r]).

Definition reset (a : attr) (w : World) : World :=
  match slot a (self w) with
  | Some i =>
      mkWorld (set_slot a None (self w))
        (mkLoop (now (loop w)) (alter cancel_handle i (scheduled (loop w)))
           (tasks (loop w)))
        (if from_option cancelled true (scheduled (loop w) !! i) then log w
         else log w ++ [Canceling (name_of a)])
  | None => w
  end.

Definition schedule (a : attr) (t : Q) (cb : nat) (w : World) : World :=
  mkWorld (set_slot a (Some (length (scheduled (loop w)))) (self w))
    (mkLoop (now (loop w))
       (scheduled (loop w)
          ++ [mkHandle (now (loop w) + t)%Q cb false false (Some a)])
       (tasks (loop w)))
    (log w ++ [Scheduling (name_of a) t]).

(** The delay [arm] schedules with, if it schedules. *)
Definition armed_time (lease_time : option Q) : option Q :=
  if not_set lease_time then None
  else
    let t := default 0%Q lease_time in
    if in_the_past t then None else Some t.

(** What [arm] logs for a slot it skips. *)
Definition skipped (a : attr) (lease_time : option Q) : log_record :=
  if not_set lease_time then LeaseDoesNotSet (name_of a)
  else LeaseInThePast (name_of a).

Definition arm_attr (lease : Lease) (a : attr) (cb : nat) (w : World) : World :=
  let w := reset a w in
  match armed_time (lease_in a lease) with
  | Some t => schedule a t cb w
  | None => add_log (skipped a (lease_in a lease)) w
  end.

(** *** Invariant

    A handle held in a slot was armed for that slot, and a handle armed for a
    slot that is not cancelled is the one held in that slot. *)

Definition held_are_own (w : World) : Prop :=
  forall a i, slot a (self w) = Some i ->
    exists h, scheduled (loop w) !! i = Some h /\ origin h = Some a.

Definition uncancelled_are_held (w : World) : Prop :=
  forall i h a,
    scheduled (loop w) !! i = Some h -> origin h = Some a ->
    cancelled h = false -> slot a (self w) = Some i.

Definition timers_inv (w : World) : Prop :=
  held_are_own w /\ uncancelled_are_held w.

(** From [w] to [w']: handles are kept, with their slot, callback and time;
    a cancelled handle stays cancelled and is not run. *)
Definition evolves (w w' : World) : Prop :=
  forall i h, scheduled (loop w) !! i = Some h ->
    exists h', scheduled (loop w') !! i = Some h' /\
               origin h' = origin h /\ callback h' = callback h /\
               when h' = when h /\
               (cancelled h = true ->
                cancelled h' = true /\ fired h' = fired h).

(** From [w] to [w']: as [evolves], and no handle is run. *)
Definition quiet (w w' : World) : Prop :=
  forall i h, scheduled (loop w) !! i = Some h ->
    exists h', scheduled (loop w') !! i = Some h' /\
               origin h' = origin h /\ callback h' = callback h /\
               when h' = when h /\ fired h' = fired h /\
               (cancelled h = true -> cancelled h' = true).

(** At most one live handle armed for a slot. *)
Definition one_live_per_slot (w : World) : Prop :=
  forall i j hi hj a,
    scheduled (loop w) !! i = Some hi -> scheduled (loop w) !! j = Some hj ->
    origin hi = Some a -> origin hj = Some a ->
    live hi = true -> live hj = true -> i = j.

(** The slots named by the keyword arguments of [arm]. *)
Definition named (callbacks : list (string * nat)) : list attr :=
  omap (fun item => attr_of_name item.1) callbacks.

Definition is_canceling (r : log_record) : Prop :=
  match r with
  | Canceling _ => True
  | _ => False
  end.

(** What [arm] logs for a slot when it decides on it. *)
Definition arm_record (lease : Lease) (a : attr) : log_record :=
  match armed_time (lease_in a lease) with
  | Some t => Scheduling (name_of a) t
  | None => skipped a (lease_in a lease)
  end.

(** What [arm]'s loop has done once it has handled the keyword arguments
    [done]: a slot holds a handle only if it was named and the lease's time
    for it is present and positive, and then it holds a live handle scheduled
    in this call ([n0] handles existed before), due at that time, for the
    callback given under that name; and the decision for every slot named
    has been logged. *)
Definition armed_ok (n0 : nat) (now0 : Q) (log0 : list log_record)
  (lease : Lease) (done : list (string * nat)) (w : World) : Prop :=
  now (loop w) = now0 /\
  (n0 <= length (scheduled (loop w)))%nat /\
  (exists new, log w = log0 ++ new /\
               (forall a, a ∈ named done -> arm_record lease a ∈ new) /\
               Forall (fun r => is_canceling r \/
                                exists a, a ∈ named done /\
                                          r = arm_record lease a) new) /\
  forall a,
    match slot a (self w) with
    | Some i =>
        (n0 <= i)%nat /\
        exists h t name cb,
          scheduled (loop w) !! i = Some h /\ live h = true /\
          origin h = Some a /\
          armed_time (lease_in a lease) = Some t /\
          when h = (now0 + t)%Q /\
          (name, cb) ∈ done /\ attr_of_name name = Some a /\
          callback h = cb
    | None => a ∉ named done \/ armed_time (lease_in a lease) = None
    end.

(** *** What [cancel] does, slot by slot *)

(** [timer.cancel()] on the handle a slot holds, if it holds one. *)
Definition cancel_at (held : option nat) (l : list TimerHandle)
  : list TimerHandle :=
  match held with
  | Some i => alter cancel_handle i l
  | None => l
  end.

(** What [_reset_timer] logs for a slot: nothing when the slot is empty or
    its handle reports [cancelled()]. *)
Definition canceling (w : World) (a : attr) : option log_record :=
  match slot a (self w) with
  | Some i =>
      if from_option cancelled true (scheduled (loop w) !! i) then None
      else Some (Canceling (name_of a))
  | None => None
  end.

End Timers.

(** ** Example data *)

Module Examples.
Import Engine DHCP4Socket.

(** An Ethernet + IPv4 + UDP frame to the given port, with the given
    flags-and-fragment-offset field and an empty UDP payload. *)
Definition udp_frame (dport frag : Z) : list Z :=
  replicate 12 0 ++ [0x08; 0x00]
    ++ [0x45; 0; 0; 0; 0; 0; frag / 256; frag mod 256; 64; 17; 0; 0]
    ++ replicate 8 0
    ++ [0; 67; dport / 256; dport mod 256; 0; 8; 0; 0].

(** A small payload codec for the [DHCP4Msg] interface: the hardware address
    followed by opaque option bytes. *)
Record payload : Type := mkPayload {
  p_chaddr : option (list Z);
  p_options : list Z;
}.

#[local] Instance payload_codec : DHCP4Msg := {|
  dhcp4msg := payload;
  chaddr := p_chaddr;
  set_chaddr a d := mkPayload (Some a) (p_options d);
  dhcp4msg_encode d :=
    match p_chaddr d with
    | Some a =>
        if (length a =? 6)%nat then Ok (a ++ p_options d)
        else Raise StructError
    | None => Raise StructError
    end;
  dhcp4msg_decode buf off :=
    a ← slice buf off 6; Ok (mkPayload (Some a) (drop (off + 6) buf));
|}.

Definition mac_a : list Z := [0x02; 0x00; 0x00; 0x00; 0x00; 0x01].
Definition broadcast : list Z := [0xff; 0xff; 0xff; 0xff; 0xff; 0xff].

Definition sock0 : AsyncDHCP4Socket := mkSocket 68 mac_a [].

Definition discover : SentDHCPMessage :=
  mkSent (mkPayload None [53; 1; 1; 255]) (Some mac_a) broadcast
    [0; 0; 0; 0] [255; 255; 255; 255] 68 67.

(** The same message, but from port 67, and with no source address yet. *)
Definition request_from_67 : SentDHCPMessage :=
  mkSent (mkPayload None [53; 1; 3; 255]) None broadcast
    [0; 0; 0; 0] [255; 255; 255; 255] 67 67.

(** A socket on the server port, and a discover message that leaves its
    source address to the socket. *)
Definition mac_b : list Z := [0x02; 0x00; 0x00; 0x00; 0x00; 0x02].

Definition server_sock : AsyncDHCP4Socket := mkSocket 67 mac_b [].

Definition discover_anon : SentDHCPMessage :=
  mkSent (mkPayload None [53; 1; 1; 255]) None broadcast
    [0; 0; 0; 0] [255; 255; 255; 255] 68 67.

(** A loop with nothing scheduled, a lease whose rebinding time has passed,
    and callbacks for the three timers. *)
Definition empty_loop : Timers.EventLoop := Timers.mkLoop 0 [] [].

Definition lease1 : Timers.Lease :=
  Timers.mkLease (Some 30%Q) (Some (-5)%Q) (Some 3600%Q).

Definition callbacks3 : list (string * nat) :=
  [("renewal", 1%nat); ("rebinding", 2%nat); ("expiration", 3%nat)]%string.

Definition armed_once : Timers.World :=
  (Timers.arm lease1 callbacks3 (Timers.initial empty_loop)).1.

(** A minute later the renewal timer has run. *)
Definition a_minute_later : Timers.World :=
  Timers.mkWorld (Timers.self armed_once)
    (Timers.advance 60 (Timers.loop armed_once)) (Timers.log armed_once).

(** Keyword arguments with a name that is no timer. *)
Definition callbacks_typo : list (string * nat) :=
  [("renewal", 1%nat); ("rebind", 2%nat); ("expiration", 3%nat)]%string.

End Examples.

(** * Properties *)

(** ** Transaction ids *)

Section XidProperties.
Import Xid.

Lemma randint_range (a b entropy : Z) :
  a <= b -> a <= randint a b entropy <= b.
Proof.
  intros Hab. unfold randint.
  pose proof (Z.mod_pos_bound entropy (b - a + 1)). lia.
Qed.

(** Every value of the interval is drawn by some entropy. *)
Lemma randint_onto (a b v : Z) :
  a <= v <= b -> randint a b (v - a) = v.
Proof.
  intros Hv. unfold randint. rewrite Z.mod_small; lia.
Qed.

Lemma random_part_low_nibble (v : Z) : Z.land (Z.land v 0xFFFFFFF0) 0xF = 0.
Proof.
  rewrite <- Z.land_assoc. change (Z.land 0xFFFFFFF0 0xF) with 0.
  apply Z.land_0_r.
Qed.

Lemma tag_low_nibble (s : Z) : 0 <= s <= 15 -> Z.land s 0xF = s.
Proof.
  intros Hs. change 0xF with (Z.ones 4).
  rewrite Z.land_ones by lia. apply Z.mod_small. lia.
Qed.

Lemma for_state_low_nibble (v s : Z) :
  0 <= s <= 15 -> Z.land (Z.lor (Z.land v 0xFFFFFFF0) s) 0xF = s.
Proof.
  intros Hs.
  rewrite Z.land_lor_distr_l, random_part_low_nibble, tag_low_nibble by lia.
  apply Z.lor_0_l.
Qed.

Lemma for_state_random_part (v s : Z) :
  0 <= s <= 15 ->
  Z.land (Z.lor (Z.land v 0xFFFFFFF0) s) 0xFFFFFFF0 = Z.land v 0xFFFFFFF0.
Proof.
  intros Hs.
  rewrite Z.land_lor_distr_l, <- Z.land_assoc, Z.land_diag.
  replace (Z.land s 0xFFFFFFF0) with 0; [apply Z.lor_0_r|].
  rewrite <- (tag_low_nibble s Hs), <- Z.land_assoc. symmetry.
  apply Z.land_0_r.
Qed.

(** C3, at the draw 1: the value constructed without a seed is 0x11, whose
    low four bits are 1, not zero.  [random_xid_prefix] draws from every
    integer of [0x10, 0xFFFFFFF0], not only from the multiples of 16 its
    docstring promises. *)
Theorem unseeded_xid_low_nibble_not_zero :
  __init__ None 1 = Ok (mkXid 0x11) /\
  Z.land (_value (mkXid 0x11)) 0xF = 1 /\
  random_xid_prefix 1 = 0x11.
Proof. repeat split. Qed.

(** C4, as stated, fails.  The unseeded value 0xFFFFFFF0 is a possible draw,
    and tagging it with state 15 gives 0xFFFFFFFF, which the constructor's
    assertion rejects: [for_state] raises instead of returning an Xid.  And a
    tag that is not the value of a [State] member reads back as no state:
    with an enumeration of the values 0 to 8, the tag 9 does. *)
Lemma for_state_request_state_counterexample :
  __init__ None 0xFFFFFFE0 = Ok (mkXid 0xFFFFFFF0) /\
  for_state (mkXid 0xFFFFFFF0) 15 = Raise AssertionError /\
  __init__ None 0 = Ok (mkXid 0x10) /\
  for_state (mkXid 0x10) 9 = Ok (mkXid 0x19) /\
  request_state [0; 1; 2; 3; 4; 5; 6; 7; 8] (mkXid 0x19) = Ok None.
Proof. repeat split. Qed.

(** C4, amended: for a tag [s] of 0..15 and an Xid constructed without a
    seed, when the tagged value is below 0xFFFFFFFF, [for_state s] returns an
    Xid, and its [request_state] is [Some s] when [s] is the value of a
    [State] member and [None] when it is not. *)
Theorem for_state_request_state (State_values : list Z) (entropy s : Z) :
  0 <= s <= 15 ->
  Z.lor (Z.land (random_xid_prefix entropy) 0xFFFFFFF0) s < 0xFFFFFFFF ->
  exists x0 x,
    __init__ None entropy = Ok x0 /\
    for_state x0 s = Ok x /\
    random_part x = random_part x0 /\
    request_state State_values x =
      Ok (if bool_decide (s ∈ State_values) then Some s else None).
Proof.
  intros Hs Hlt.
  exists (mkXid (random_xid_prefix entropy)).
  exists (mkXid (Z.lor (Z.land (random_xid_prefix entropy) 0xFFFFFFF0) s)).
  split; [reflexivity|]. split.
  - unfold for_state, __init__, random_part. cbn [_value].
    apply Z.ltb_lt in Hlt. rewrite Hlt. reflexivity.
  - split.
    + apply (for_state_random_part (random_xid_prefix entropy) s Hs).
    + unfold request_state, State. cbn [_value].
      rewrite (for_state_low_nibble (random_xid_prefix entropy) s Hs).
      destruct (bool_decide (s ∈ State_values)); reflexivity.
Qed.

Lemma for_state_request_state_witness :
  exists x0 x,
    __init__ None 7 = Ok x0 /\
    for_state x0 5 = Ok x /\
    random_part x = random_part x0 /\
    request_state [0; 1; 2; 3; 4; 5; 6; 7; 8] x =
      Ok (if bool_decide (5 ∈ [0; 1; 2; 3; 4; 5; 6; 7; 8]) then Some 5
          else None).
Proof.
  apply (for_state_request_state [0; 1; 2; 3; 4; 5; 6; 7; 8] 7 5).
  - lia.
  - vm_compute. reflexivity.
Defined.

(** C8: an explicit value of 0xFFFFFFFF or more fails the constructor's
    assertion, whatever the generator would have drawn; the constructor
    keeps no state, so any other construction is unaffected. *)
Theorem explicit_value_too_large (v entropy : Z) :
  0xFFFFFFFF <= v ->
  __init__ (Some v) entropy = Raise AssertionError /\
  (forall v' entropy', v' < 0xFFFFFFFF ->
     __init__ (Some v') entropy' = Ok (mkXid v')).
Proof.
  intros Hv. split.
  - unfold __init__. apply Z.ltb_ge in Hv. rewrite Hv. reflexivity.
  - intros v' entropy' Hv'. unfold __init__.
    apply Z.ltb_lt in Hv'. rewrite Hv'. reflexivity.
Qed.

Lemma explicit_value_too_large_witness :
  __init__ (Some 0xFFFFFFFF) 0 = Raise AssertionError /\
  (forall v' entropy', v' < 0xFFFFFFFF ->
     __init__ (Some v') entropy' = Ok (mkXid v')).
Proof. apply (explicit_value_too_large 0xFFFFFFFF 0). lia. Defined.

(** C10: the constructor has no lower bound: every explicit value below
    0xFFFFFFFF, negative ones included, is accepted and stored as it is. *)
Theorem explicit_value_no_lower_bound (v entropy : Z) :
  v < 0xFFFFFFFF ->
  exists x, __init__ (Some v) entropy = Ok x /\ _value x = v /\ __index__ x = v.
Proof.
  intros Hv. exists (mkXid v). unfold __init__.
  apply Z.ltb_lt in Hv. rewrite Hv. repeat split.
Qed.

Lemma explicit_value_no_lower_bound_witness :
  exists x, __init__ (Some (-1)) 0 = Ok x /\ _value x = -1 /\ __index__ x = -1.
Proof. apply (explicit_value_no_lower_bound (-1) 0). lia. Defined.

End XidProperties.

(** ** The packet filter *)

Section FilterProperties.
Import Engine DHCP4Socket Examples.

Lemma exec_S (fuel : nat) (prog : list insn) (pkt : skb) (a x : Z)
  (pc : nat) (i : insn) :
  prog !! pc = Some i ->
  exec (S fuel) prog pkt a x pc =
    match step pkt i a x pc with
    | Continue a' x' pc' =>
        let '(tr, f) := exec fuel prog pkt a' x' pc' in (pc :: tr, f)
    | Return v => ([pc], Returned pc v)
    | Fault => ([pc], Faulted pc)
    | Unsupported => ([pc], Stuck pc)
    end.
Proof. intros Hi. cbn [exec]. rewrite Hi. reflexivity. Qed.

Lemma u32_small (k : Z) : 0 <= k < 2 ^ 32 -> u32 k = k.
Proof. intros Hk. unfold u32. apply Z.mod_small. exact Hk. Qed.

Lemma low_nibble_range (v : Z) : 0 <= Z.land v 0xf <= 15.
Proof.
  replace (Z.land v 0xf) with (v mod 2 ^ 4)
    by (symmetry; apply (Z.land_ones v 4); lia).
  pose proof (Z.mod_pos_bound v (2 ^ 4)). lia.
Qed.

Lemma step_jeq (pkt : skb) (jt jf k a x : Z) (pc : nat) :
  step pkt (BPF.JMP + BPF.JEQ + BPF.K, jt, jf, k) a x pc =
    Continue a x (jump pc (if a =? u32 k then jt else jf)).
Proof. reflexivity. Qed.

Lemma step_jset (pkt : skb) (jt jf k a x : Z) (pc : nat) :
  step pkt (BPF.JMP + BPF.JSET + BPF.K, jt, jf, k) a x pc =
    Continue a x (jump pc (if Z.land a (u32 k) =? 0 then jf else jt)).
Proof. reflexivity. Qed.

Lemma step_ret (pkt : skb) (jt jf k a x : Z) (pc : nat) :
  step pkt (BPF.RET + BPF.K, jt, jf, k) a x pc = Return (u32 k).
Proof. reflexivity. Qed.

Lemma step_ld_vlan (pkt : skb) (a x : Z) (pc : nat) :
  step pkt
    (BPF.LD + BPF.B + BPF.ABS, 0, 0, SKF_AD_OFF + SKF_AD_VLAN_TAG_PRESENT)
    a x pc =
    Continue (if vlan_tag_present pkt then 1 else 0) x (pc + 1).
Proof. reflexivity. Qed.

Lemma step_ld_ethertype (pkt : skb) (a x : Z) (pc : nat) :
  step pkt (BPF.LD + BPF.H + BPF.ABS, 0, 0, 12) a x pc =
    of_load (load_half (data pkt) 12) (fun v => Continue v x (pc + 1)).
Proof. reflexivity. Qed.

Lemma step_ld_proto (pkt : skb) (a x : Z) (pc : nat) :
  step pkt (BPF.LD + BPF.B + BPF.ABS, 0, 0, 23) a x pc =
    of_load (load_byte (data pkt) 23) (fun v => Continue v x (pc + 1)).
Proof. reflexivity. Qed.

Lemma step_ld_frag (pkt : skb) (a x : Z) (pc : nat) :
  step pkt (BPF.LD + BPF.H + BPF.ABS, 0, 0, 20) a x pc =
    of_load (load_half (data pkt) 20) (fun v => Continue v x (pc + 1)).
Proof. reflexivity. Qed.

Lemma step_ldx_hdrlen (pkt : skb) (a x : Z) (pc : nat) :
  step pkt (BPF.LDX + BPF.B + BPF.MSH, 0, 0, 14) a x pc =
    of_load (load_byte (data pkt) 14)
      (fun v => Continue a (4 * Z.land v 0xf) (pc + 1)).
Proof. reflexivity. Qed.

Lemma step_ld_dport (pkt : skb) (a x : Z) (pc : nat) :
  0 <= x < 2 ^ 31 ->
  step pkt (BPF.LD + BPF.H + BPF.IND, 0, 0, 16) a x pc =
    of_load (load_half (data pkt) (x + 16)) (fun v => Continue v x (pc + 1)).
Proof.
  intros Hx.
  change (step pkt (BPF.LD + BPF.H + BPF.IND, 0, 0, 16) a x pc)
    with (of_load (load_half (data pkt) (u32 (x + 16)))
            (fun v => Continue v x (pc + 1))).
  rewrite u32_small by lia. reflexivity.
Qed.

Ltac exec_one := erewrite exec_S by reflexivity.

Lemma run_filter_spec (port : Z) (pkt : skb) :
  run (listen_udp_port port) pkt = filter_spec (u32 port) pkt.
Proof.
  unfold run, filter_spec.
  change (length (listen_udp_port port)) with 13%nat.
  exec_one. rewrite step_ld_vlan.
  exec_one. rewrite step_jeq.
  destruct (vlan_tag_present pkt).
  { reflexivity. }
  change (jump 1 (if 0 =? u32 0 then 0 else 10)) with 2%nat.
  exec_one. rewrite step_ld_ethertype.
  destruct (load_half (data pkt) 12) as [ethertype|]; [|reflexivity].
  cbn [of_load].
  exec_one. rewrite step_jeq.
  change (u32 2048) with ETHERTYPE_IP.
  destruct (ethertype =? ETHERTYPE_IP); [|reflexivity].
  change (jump 3 0) with 4%nat. cbn [negb].
  exec_one. rewrite step_ld_proto.
  destruct (load_byte (data pkt) 23) as [proto|]; [|reflexivity].
  cbn [of_load].
  exec_one. rewrite step_jeq.
  change (u32 IPPROTO_UDP) with IPPROTO_UDP.
  destruct (proto =? IPPROTO_UDP); [|reflexivity].
  change (jump 5 0) with 6%nat. cbn [negb].
  exec_one. rewrite step_ld_frag.
  destruct (load_half (data pkt) 20) as [frag|]; [|reflexivity].
  cbn [of_load].
  exec_one. rewrite step_jset.
  change (u32 8191) with 8191.
  destruct (Z.land frag 8191 =? 0); [|reflexivity].
  change (jump 7 0) with 8%nat. cbn [negb].
  exec_one. rewrite step_ldx_hdrlen.
  destruct (load_byte (data pkt) 14) as [verlen|]; [|reflexivity].
  cbn [of_load].
  exec_one. rewrite step_ld_dport
    by (pose proof (low_nibble_range verlen); lia).
  destruct (load_half (data pkt) (4 * Z.land verlen 15 + 16)) as [dport|];
    [|reflexivity].
  cbn [of_load].
  exec_one. rewrite step_jeq.
  destruct (dport =? u32 port); reflexivity.
Qed.

(** Control only moves forward in a program that passes the check. *)
Lemma step_forward (len pc : nat) (i : insn) (pkt : skb) (a x a' x' : Z)
  (pc' : nat) :
  insn_forward len pc i = true ->
  step pkt i a x pc = Continue a' x' pc' ->
  (pc < pc' < len)%nat.
Proof.
  destruct i as [[[code jt] jf] k]. unfold insn_forward, step, of_load, jump.
  unfold BPF.LD, BPF.LDX, BPF.JMP, BPF.RET, BPF.MISC, BPF.JA.
  intros Hf Hs.
  repeat match type of Hs with
         | context [if ?c then _ else _] => destruct c eqn:?
         | context [match ?c with _ => _ end] => destruct c eqn:?
         end;
    try discriminate Hs; injection Hs as <- <- <-;
    repeat match goal with
           | E : (_ =? _) = true |- _ => apply Z.eqb_eq in E
           | E : (_ =? _) = false |- _ => apply Z.eqb_neq in E
           end;
    repeat match type of Hf with
           | context [if ?c =? ?d then _ else _] =>
               destruct (Z.eqb_spec c d); try lia
           end;
    try apply andb_prop in Hf as [? ?];
    repeat match goal with
           | E : (_ <? _)%nat = true |- _ => apply Nat.ltb_lt in E
           end;
    lia.
Qed.

Lemma jumps_forward_lookup (prog : list insn) (pc : nat) (i : insn) :
  jumps_forward prog = true ->
  prog !! pc = Some i ->
  insn_forward (length prog) pc i = true.
Proof.
  unfold jumps_forward. rewrite forallb_forall. intros Hall Hi.
  apply (Hall (pc, i)). apply list_elem_of_In, elem_of_lookup_imap.
  exists pc, i. split; [reflexivity | exact Hi].
Qed.

(** A program that passes the check never runs out of fuel from [pc] when
    given as many steps as there are instructions from [pc] on, never leaves
    its bounds, and executes at most that many instructions. *)
Lemma exec_forward_terminates (prog : list insn) (pkt : skb) :
  jumps_forward prog = true ->
  forall (fuel pc : nat) (a x : Z),
    (pc < length prog)%nat -> (length prog - pc <= fuel)%nat ->
    (length (exec fuel prog pkt a x pc).1 <= length prog - pc)%nat /\
    match (exec fuel prog pkt a x pc).2 with
    | OutOfFuel => False
    | Stuck q => exists i a' x', prog !! q = Some i /\
                                 step pkt i a' x' q = Unsupported
    | Returned q _ | Faulted q => (q < length prog)%nat
    end.
Proof.
  intros Hfw. induction fuel as [|fuel IH]; intros pc a x Hpc Hfuel; [lia|].
  destruct (lookup_lt_is_Some_2 prog pc Hpc) as [i Hi].
  cbn [exec]. rewrite Hi.
  destruct (step pkt i a x pc) as [a' x' pc'| v | |] eqn:Hs; cbn.
  - destruct (step_forward _ _ _ _ _ _ _ _ _
                (jumps_forward_lookup _ _ _ Hfw Hi) Hs) as [Hlt Hlen].
    destruct (IH pc' a' x' Hlen ltac:(lia)) as [IHl IHf].
    destruct (exec fuel prog pkt a' x' pc') as [tr f]. cbn in *.
    split; [lia | exact IHf].
  - split; [lia | exact Hpc].
  - split; [lia | exact Hpc].
  - split; [lia|]. exists i, a, x. split; assumption.
Qed.

(** More fuel does not change a run that has ended. *)
Lemma exec_fuel_mono (prog : list insn) (pkt : skb) (fuel extra : nat) :
  forall (a x : Z) (pc : nat),
    (exec fuel prog pkt a x pc).2 <> OutOfFuel ->
    exec (fuel + extra) prog pkt a x pc = exec fuel prog pkt a x pc.
Proof.
  induction fuel as [|fuel IH]; intros a x pc Hend; [cbn in Hend; done|].
  cbn [exec Nat.add] in *.
  destruct (prog !! pc) as [i|]; [|reflexivity].
  destruct (step pkt i a x pc) as [a' x' pc'| | |]; try reflexivity.
  rewrite IH; [reflexivity|].
  destruct (exec fuel prog pkt a' x' pc'). exact Hend.
Qed.

Ltac drop_case :=
  cbn;
  split;
  [ split;
    [ intros Hacc; discriminate Hacc
    | intros (Hv' & Het & Hpr & (fr & Hfr & Hfr0) & (vl & Hvl & Hdp));
      simplify_eq; congruence ]
  | intros _; reflexivity ].

(** C2: for every port (any value the instruction's 32-bit operand holds,
    so every 16-bit UDP port), the filter built for it runs the checks of
    section 4.1 in their order, stopping at the first that fails
    ([filter_spec] names the instructions run); it accepts, with length
    65535, exactly the frames that have no VLAN tag, Ethertype 0x0800 at
    offset 12, protocol UDP at offset 23, the low 13 bits of the half-word at
    offset 20 zero, and the port at offset 4 * (low nibble of byte 14) + 16;
    every other frame is dropped, with length zero. *)
Theorem listen_udp_port_accepts (port : Z) (pkt : skb) :
  0 <= port < 2 ^ 32 ->
  run (listen_udp_port port) pkt = filter_spec port pkt /\
  (verdict (run (listen_udp_port port) pkt).2 = Some accept_len <->
     vlan_tag_present pkt = false /\
     load_half (data pkt) 12 = Some 0x0800 /\
     load_byte (data pkt) 23 = Some IPPROTO_UDP /\
     (exists frag,
        load_half (data pkt) 20 = Some frag /\ Z.land frag 0x1FFF = 0) /\
     (exists verlen,
        load_byte (data pkt) 14 = Some verlen /\
        load_half (data pkt) (4 * Z.land verlen 0xF + 16) = Some port)) /\
  (verdict (run (listen_udp_port port) pkt).2 <> Some accept_len ->
   verdict (run (listen_udp_port port) pkt).2 = Some drop_len).
Proof.
  intros Hport. rewrite run_filter_spec, (u32_small port Hport).
  split; [reflexivity|].
  unfold filter_spec, ETHERTYPE_IP, IPPROTO_UDP.
  destruct (vlan_tag_present pkt) eqn:Hv; [drop_case|].
  destruct (load_half (data pkt) 12) as [ethertype|] eqn:H12; [|drop_case].
  destruct (Z.eqb_spec ethertype 2048) as [->|Hne]; [|drop_case].
  cbn [negb].
  destruct (load_byte (data pkt) 23) as [proto|] eqn:H23; [|drop_case].
  destruct (Z.eqb_spec proto 17) as [->|Hne]; [|drop_case].
  cbn [negb].
  destruct (load_half (data pkt) 20) as [frag|] eqn:H20; [|drop_case].
  destruct (Z.eqb_spec (Z.land frag 8191) 0) as [Hfrag|Hne]; [|drop_case].
  cbn [negb].
  destruct (load_byte (data pkt) 14) as [verlen|] eqn:H14; [|drop_case].
  destruct (load_half (data pkt) (4 * Z.land verlen 15 + 16)) as [dport|]
    eqn:Hdport; [|drop_case].
  destruct (Z.eqb_spec dport port) as [->|Hne]; [|drop_case].
  cbn. split; [|intros Hno; exfalso; apply Hno; reflexivity].
  split; [intros _|reflexivity].
  repeat split; eauto.
Qed.

Lemma listen_udp_port_accepts_witness :
  run (listen_udp_port 68) (mkSkb false (udp_frame 68 0)) =
    filter_spec 68 (mkSkb false (udp_frame 68 0)) /\
  verdict (run (listen_udp_port 68) (mkSkb false (udp_frame 68 0))).2 =
    Some accept_len /\
  verdict (run (listen_udp_port 68) (mkSkb false (udp_frame 67 0))).2 =
    Some drop_len /\
  verdict (run (listen_udp_port 68) (mkSkb true (udp_frame 68 0))).2 =
    Some drop_len /\
  verdict (run (listen_udp_port 68) (mkSkb false (udp_frame 68 1))).2 =
    Some drop_len.
Proof.
  split; [|repeat split].
  apply (listen_udp_port_accepts 68 (mkSkb false (udp_frame 68 0))). lia.
Defined.

(** C9, as stated, fails on a frame that ends before a field the filter
    reads: on a 14-byte frame with Ethertype 0x0800 the run ends at
    instruction 4, the load of the protocol byte at offset 23, where the
    engine returns zero; no return instruction of the program is reached. *)
Lemma listen_udp_port_short_frame :
  run (listen_udp_port 68) (mkSkb false (replicate 12 0 ++ [0x08; 0x00])) =
    ([0; 1; 2; 3; 4]%nat, Faulted 4) /\
  listen_udp_port 68 !! 4%nat = Some (BPF.LD + BPF.B + BPF.ABS, 0, 0, 23) /\
  ~ (exists pc v,
       (run (listen_udp_port 68)
          (mkSkb false (replicate 12 0 ++ [0x08; 0x00]))).2 = Returned pc v).
Proof.
  split; [reflexivity|]. split; [reflexivity|].
  intros (pc & v & Hret). discriminate Hret.
Qed.

(** C9, amended: for every port and every frame the run of the filter ends
    within as many steps as the program has instructions, yielding drop or
    accept: at one of the program's two return instructions or, when a load
    reaches past the end of the frame, at that load, where the engine returns
    zero (section 4.1, edge cases).  Every jump targets a later instruction
    within the program, so no run loops or leaves the program; more fuel
    gives the same run. *)
Theorem listen_udp_port_terminates (port : Z) (pkt : skb) :
  jumps_forward (listen_udp_port port) = true /\
  exists tr f,
    run (listen_udp_port port) pkt = (tr, f) /\
    (f = Returned 11 accept_len \/ f = Returned 12 drop_len \/
     exists pc, f = Faulted pc /\ (pc < 10)%nat) /\
    (verdict f = Some accept_len \/ verdict f = Some drop_len) /\
    (length tr <= length (listen_udp_port port))%nat /\
    (forall extra,
       exec (length (listen_udp_port port) + extra) (listen_udp_port port)
         pkt 0 0 0 = (tr, f)).
Proof.
  assert (Hfw : jumps_forward (listen_udp_port port) = true) by reflexivity.
  split; [exact Hfw|].
  destruct (run (listen_udp_port port) pkt) as [tr f] eqn:Hrun.
  exists tr, f. split; [reflexivity|].
  pose proof (exec_forward_terminates (listen_udp_port port) pkt Hfw
                (length (listen_udp_port port)) 0 0 0) as Hterm.
  fold (run (listen_udp_port port) pkt) in Hterm. rewrite Hrun in Hterm.
  destruct Hterm as [Hlen _]; [cbn; lia | cbn; lia |].
  assert (Hf : f = Returned 11 accept_len \/ f = Returned 12 drop_len \/
               exists pc, f = Faulted pc /\ (pc < 10)%nat).
  { rewrite run_filter_spec in Hrun. unfold filter_spec in Hrun.
    repeat match type of Hrun with
           | context [if ?c then _ else _] => destruct c
           | context [match ?c with _ => _ end] => destruct c
           end;
      injection Hrun as <- <-; eauto 6 with lia. }
  split; [exact Hf|]. split.
  { destruct Hf as [-> | [-> | (pc & -> & _)]]; cbn; auto. }
  split; [cbn in *; lia|].
  intros extra. rewrite exec_fuel_mono; [exact Hrun|].
  fold (run (listen_udp_port port) pkt). rewrite Hrun. cbn.
  destruct Hf as [-> | [-> | (pc & -> & _)]]; discriminate.
Qed.

End FilterProperties.

(** ** The frame codec *)

Section CodecProperties.
Import DHCP4Socket Examples.

Lemma pack_u16_ok (v : Z) :
  0 <= v < 65536 -> pack_u16 v = Ok [v / 256; v mod 256].
Proof.
  intros Hv. unfold pack_u16.
  destruct (Z.leb_spec 0 v); [|lia]. destruct (Z.ltb_spec v 65536); [|lia].
  reflexivity.
Qed.

Lemma unpack_pack_u16 (v : Z) : unpack_u16 [v / 256; v mod 256] = v.
Proof. unfold unpack_u16. pose proof (Z.div_mod v 256). lia. Qed.

Lemma pack_addr_ok (n : nat) (a : list Z) :
  length a = n -> forallb is_byte a = true -> pack_addr n a = Ok a.
Proof.
  intros Hn Hb. unfold pack_addr. rewrite Hb, Hn, Nat.eqb_refl. reflexivity.
Qed.

Lemma csum_range (d : list Z) : 0 <= csum d < 65536.
Proof.
  unfold csum. cbv zeta.
  generalize (Z.lnot (Z.shiftr (sum16 d) 16 + Z.land (sum16 d) 65535
                      + Z.shiftr (Z.shiftr (sum16 d) 16
                                  + Z.land (sum16 d) 65535) 16)).
  intros s. replace (Z.land s 65535) with (s mod 2 ^ 16)
    by (symmetry; apply (Z.land_ones s 16); lia).
  pose proof (Z.mod_pos_bound s (2 ^ 16)). lia.
Qed.


Lemma pack_u8_ok (v : Z) : 0 <= v < 256 -> pack_u8 v = Ok [v].
Proof.
  intros Hv. unfold pack_u8, is_byte.
  destruct (Z.leb_spec 0 v); [|lia]. destruct (Z.ltb_spec v 256); [|lia].
  reflexivity.
Qed.

Ltac pack_step :=
  first
    [ rewrite pack_addr_ok by assumption
    | rewrite pack_u16_ok by (first [assumption | lia | apply csum_range])
    | rewrite pack_u8_ok by (unfold IPPROTO_UDP; lia)
    | progress cbn [mbind result_bind] ].

Context `{Codec : DHCP4Msg}.

Lemma assemble_decode (self : AsyncDHCP4Socket) (msg : SentDHCPMessage)
  (src buf : list Z) :
  (forall d b pre, dhcp4msg_encode d = Ok b ->
                   dhcp4msg_decode (pre ++ b) (length pre) = Ok d) ->
  eth_src msg = Some src ->
  is_addr 6 src -> is_addr 6 (eth_dst msg) ->
  is_addr 4 (ip_src msg) -> is_addr 4 (ip_dst msg) ->
  0 <= port self < 65536 -> 0 <= dport msg < 65536 ->
  dhcp4msg_encode (dhcp msg) = Ok buf ->
  IPV4_HEADER_SIZE + UDP_HEADER_SIZE + Z.of_nat (length buf) < 65536 ->
  exists frame,
    assemble self msg = Ok frame /\
    _decode_msg frame =
      Ok (mkReceived (dhcp msg) src (eth_dst msg) (ip_src msg) (ip_dst msg)
            (port self) (dport msg)).
Proof.
  intros Hlaw Hsrc [Hsrc6 Hsrcb] [Hdst6 Hdstb] [Hips4 Hipsb]
    [Hipd4 Hipdb] Hsp Hdp Henc Hlen.
  destruct msg as [d esrc edst ipsrc ipdst sp dp]. cbn in *. subst esrc.
  unfold assemble, udp4_pseudo_header_encode, udpmsg_encode, ip4msg_encode,
    ethmsg_encode.
  unfold IPV4_HEADER_SIZE, UDP_HEADER_SIZE in *.
  cbn [dhcp eth_src eth_dst ip_src ip_dst dport default from_option id
       udp_sport udp_dport udp_len udp_csum ph_src ph_dst ph_len
       ip_verlen ip_dsf ip_len ip_id ip_flags ip_ttl ip_proto ip_csum
       ip_src_f ip_dst_f eth_dst_f eth_src_f eth_type_f].
  rewrite Henc. unfold ETHERTYPE_IP.
  repeat pack_step.
  eexists. split; [reflexivity|].
  destruct edst as [|e0 [|e1 [|e2 [|e3 [|e4 [|e5 [|]]]]]]];
    try discriminate Hdst6.
  destruct src as [|s0 [|s1 [|s2 [|s3 [|s4 [|s5 [|]]]]]]];
    try discriminate Hsrc6.
  destruct ipsrc as [|a0 [|a1 [|a2 [|a3 [|]]]]]; try discriminate Hips4.
  destruct ipdst as [|b0 [|b1 [|b2 [|b3 [|]]]]]; try discriminate Hipd4.
  unfold _decode_msg, ethmsg_decode, ip4msg_decode, udpmsg_decode.
  cbn -[Z.div Z.modulo unpack_u16 csum dhcp4msg_decode].
  change (Z.to_nat (4 * Z.land 69 15)) with 20%nat.
  cbn -[Z.div Z.modulo unpack_u16 csum dhcp4msg_decode].
  rewrite !unpack_pack_u16.
  match goal with
  | |- context [dhcp4msg_decode ?l 42] =>
      change (dhcp4msg_decode l 42)
        with (dhcp4msg_decode (take 42 l ++ buf) (length (take 42 l)))
  end.
  rewrite (Hlaw d buf _ Henc). reflexivity.
Qed.

(** C1: for a well-formed message (source port equal to the socket's port,
    source and destination addresses set and of the right size, ports that
    fit 16 bits, a payload that encodes and fits the length fields), [put]
    returns the message and sends one frame, and decoding that frame gives
    back the payload of the message (with [chaddr] filled from the source
    address if it was unset, as [put] fills it in the message itself), the
    same MAC addresses, the same IPv4 addresses and the same UDP ports.
    The payload codec is an interface; it is assumed to decode what it
    encodes. *)
Theorem put_decode_roundtrip (self : AsyncDHCP4Socket)
  (msg : SentDHCPMessage) (src buf : list Z) :
  (forall d b pre, dhcp4msg_encode d = Ok b ->
                   dhcp4msg_decode (pre ++ b) (length pre) = Ok d) ->
  sport msg = port self ->
  eth_src msg = Some src ->
  is_addr 6 src -> is_addr 6 (eth_dst msg) ->
  is_addr 4 (ip_src msg) -> is_addr 4 (ip_dst msg) ->
  0 <= sport msg < 65536 -> 0 <= dport msg < 65536 ->
  dhcp4msg_encode (payload_sent src (dhcp msg)) = Ok buf ->
  IPV4_HEADER_SIZE + UDP_HEADER_SIZE + Z.of_nat (length buf) < 65536 ->
  exists frame r,
    returned (put self msg) = Ok (msg_after (put self msg)) /\
    sent (sock_after (put self msg)) = sent self ++ [frame] /\
    _decode_msg frame = Ok r /\
    msg_after (put self msg) = set_dhcp (payload_sent src (dhcp msg)) msg /\
    (is_Some (chaddr (dhcp msg)) -> msg_after (put self msg) = msg) /\
    r_dhcp r = dhcp (msg_after (put self msg)) /\
    r_eth_src r = src /\
    r_eth_dst r = eth_dst msg /\
    r_ip_src r = ip_src msg /\
    r_ip_dst r = ip_dst msg /\
    r_sport r = sport msg /\
    r_dport r = dport msg.
Proof.
  intros Hlaw Hsport Hsrc Hsrca Hdsta Hipsa Hipda Hsp Hdp Henc Hlen.
  assert (Htruthy : truthy (eth_src msg) = true).
  { rewrite Hsrc. destruct Hsrca as [Hsrc6 _].
    destruct src; [discriminate Hsrc6 | reflexivity]. }
  set (msg' := set_dhcp (payload_sent src (dhcp msg)) msg).
  destruct (assemble_decode self msg' src buf) as (frame & Hasm & Hdec);
    try assumption; [rewrite <- Hsport; assumption|].
  assert (Hput : put self msg = mkPut (Ok msg') msg' (add_sent frame self)).
  { unfold put. rewrite Hsport, Z.eqb_refl, Htruthy. cbn [negb].
    replace (match chaddr (dhcp msg) with
             | Some _ => msg
             | None => set_dhcp (set_chaddr (default [] (eth_src msg))
                                   (dhcp msg)) msg
             end) with msg'.
    - rewrite Hasm. reflexivity.
    - unfold msg', payload_sent. rewrite Hsrc.
      destruct (chaddr (dhcp msg)); [|reflexivity].
      destruct msg; reflexivity. }
  exists frame. eexists. rewrite Hput. cbn [returned msg_after sock_after].
  split; [reflexivity|]. split; [reflexivity|]. split; [exact Hdec|].
  split; [reflexivity|]. split.
  { intros [a Ha]. unfold msg', payload_sent. rewrite Ha.
    destruct msg; reflexivity. }
  rewrite Hsport. repeat split.
Qed.

(** C7: when the source port of the message is not the port of the socket,
    [put] raises [ValueError], and does so before touching anything: the
    message is as it was (neither [eth_src] nor [chaddr] is filled), nothing
    is sent and the socket is as it was, so what [put] does next is what it
    would have done without the failed call. *)
Theorem put_port_mismatch (self : AsyncDHCP4Socket) (msg : SentDHCPMessage) :
  sport msg <> port self ->
  returned (put self msg) = Raise ValueError /\
  msg_after (put self msg) = msg /\
  sock_after (put self msg) = self /\
  (forall msg', put (sock_after (put self msg)) msg' = put self msg').
Proof.
  intros Hne. unfold put.
  destruct (Z.eqb_spec (sport msg) (port self)) as [Heq|_]; [contradiction|].
  cbn. repeat split.
Qed.

End CodecProperties.

Section CodecExamples.
Import DHCP4Socket Examples.

Lemma payload_codec_roundtrip (d : payload) (b pre : list Z) :
  dhcp4msg_encode (DHCP4Msg := payload_codec) d = Ok b ->
  dhcp4msg_decode (DHCP4Msg := payload_codec) (pre ++ b) (length pre) = Ok d.
Proof.
  destruct d as [[a|] opts]; cbn; [|discriminate].
  destruct (Nat.eqb_spec (length a) 6) as [Ha|]; [|discriminate].
  intros [= <-]. unfold slice.
  rewrite !length_app, Ha.
  destruct (Nat.leb_spec (length pre + 6) (length pre + (6 + length opts)));
    [|lia].
  cbn. rewrite drop_app_length, drop_app_add.
  rewrite <- Ha, take_app_length, drop_app_length. reflexivity.
Qed.

Lemma put_decode_roundtrip_witness :
  exists frame r,
    returned (put sock0 discover) = Ok (msg_after (put sock0 discover)) /\
    sent (sock_after (put sock0 discover)) = sent sock0 ++ [frame] /\
    _decode_msg frame = Ok r /\
    msg_after (put sock0 discover) =
      set_dhcp (payload_sent mac_a (dhcp discover)) discover /\
    (is_Some (chaddr (dhcp discover)) ->
     msg_after (put sock0 discover) = discover) /\
    r_dhcp r = dhcp (msg_after (put sock0 discover)) /\
    r_eth_src r = mac_a /\
    r_eth_dst r = eth_dst discover /\
    r_ip_src r = ip_src discover /\
    r_ip_dst r = ip_dst discover /\
    r_sport r = sport discover /\
    r_dport r = dport discover.
Proof.
  apply (put_decode_roundtrip sock0 discover mac_a (mac_a ++ [53; 1; 1; 255])).
  - apply payload_codec_roundtrip.
  - reflexivity.
  - reflexivity.
  - split; reflexivity.
  - split; reflexivity.
  - split; reflexivity.
  - split; reflexivity.
  - cbn. lia.
  - cbn. lia.
  - reflexivity.
  - vm_compute. reflexivity.
Defined.

Lemma put_port_mismatch_witness :
  returned (put sock0 request_from_67) = Raise ValueError /\
  msg_after (put sock0 request_from_67) = request_from_67 /\
  sock_after (put sock0 request_from_67) = sock0 /\
  (forall msg' : @SentDHCPMessage payload_codec,
     put (sock_after (put sock0 request_from_67)) msg' = put sock0 msg').
Proof. apply (put_port_mismatch sock0 request_from_67). cbn. lia. Defined.


End CodecExamples.

(** ** Lease timers *)

Section TimersProperties.
Import Timers.

Lemma slot_set_slot_eq (a : attr) (v : option nat) (t : Timers) :
  slot a (set_slot a v t) = v.
Proof. destruct a; reflexivity. Qed.

Lemma slot_set_slot_ne (a b : attr) (v : option nat) (t : Timers) :
  a <> b -> slot a (set_slot b v t) = slot a t.
Proof. destruct a, b; intros Hne; try reflexivity; contradiction. Qed.

Lemma cancel_handle_cancelled (h : TimerHandle) :
  cancelled h = true -> cancel_handle h = h.
Proof. destruct h; cbn; intros ->; reflexivity. Qed.

Lemma alter_cancel_cancelled (l : list TimerHandle) (i : nat) :
  from_option cancelled true (l !! i) = true -> alter cancel_handle i l = l.
Proof.
  intros Hc. apply list_eq. intros j.
  destruct (decide (i = j)) as [<-|Hne].
  - rewrite list_lookup_alter_eq.
    destruct (l !! i) as [h|]; [|reflexivity].
    cbn in *. rewrite cancel_handle_cancelled; [reflexivity | exact Hc].
  - apply list_lookup_alter_ne. exact Hne.
Qed.

Lemma attr_of_name_inv (name : string) (a : attr) :
  attr_of_name name = Some a -> name = name_of a.
Proof.
  unfold attr_of_name.
  destruct (String.eqb_spec name "renewal") as [->|_]; [intros [= <-]; done|].
  destruct (String.eqb_spec name "rebinding") as [->|_];
    [intros [= <-]; done|].
  destruct (String.eqb_spec name "expiration") as [->|_];
    [intros [= <-]; done|].
  discriminate.
Qed.

Lemma attr_of_name_of (a : attr) : attr_of_name (name_of a) = Some a.
Proof. destruct a; reflexivity. Qed.

(** The methods, on the names of the three slots, are the functions
    above. *)
Lemma _reset_timer_slot (name : string) (a : attr) (w : World) :
  attr_of_name name = Some a -> _reset_timer name w = (reset a w, Ok tt).
Proof.
  intros Ha. rewrite (attr_of_name_inv name a Ha).
  unfold _reset_timer, reset, getattr, setattr, timer_cancelled,
    timer_cancel, LOG, mbind, M_bind, mret, M_ret.
  rewrite attr_of_name_of.
  destruct (slot a (self w)) as [i|]; [|reflexivity].
  destruct (from_option cancelled true (scheduled (loop w) !! i)) eqn:Hc;
    cbn; [|reflexivity].
  rewrite (alter_cancel_cancelled _ _ Hc). destruct w as [t [n s k] lg].
  reflexivity.
Qed.

Lemma _reset_timer_unknown (name : string) (w : World) :
  attr_of_name name = None -> _reset_timer name w = (w, Raise AttributeError).
Proof.
  intros Ha. unfold _reset_timer, getattr, mbind, M_bind. rewrite Ha.
  reflexivity.
Qed.

Lemma cancel_resets (w : World) :
  cancel w = (reset Expiration (reset Rebinding (reset Renewal w)), Ok tt).
Proof.
  unfold cancel. cbn [for_each]. unfold mbind, M_bind.
  rewrite (_reset_timer_slot "renewal" Renewal) by reflexivity.
  rewrite (_reset_timer_slot "rebinding" Rebinding) by reflexivity.
  rewrite (_reset_timer_slot "expiration" Expiration) by reflexivity.
  reflexivity.
Qed.

Lemma arm_one_slot (lease : Lease) (name : string) (cb : nat) (a : attr)
  (w : World) :
  attr_of_name name = Some a ->
  arm_one lease (name, cb) w = (arm_attr lease a cb w, Ok tt).
Proof.
  intros Ha. unfold arm_one, arm_attr, armed_time, skipped, mbind, M_bind.
  rewrite (_reset_timer_slot name a) by exact Ha.
  rewrite (attr_of_name_inv name a Ha).
  unfold getattr_in. rewrite attr_of_name_of.
  destruct (not_set (lease_in a lease)); [reflexivity|].
  destruct (in_the_past (default 0%Q (lease_in a lease))); [reflexivity|].
  unfold LOG, call_later, setattr, schedule. cbn.
  rewrite attr_of_name_of. reflexivity.
Qed.

Lemma arm_one_unknown (lease : Lease) (name : string) (cb : nat) (w : World) :
  attr_of_name name = None ->
  arm_one lease (name, cb) w = (w, Raise AttributeError).
Proof.
  intros Ha. unfold arm_one, mbind, M_bind.
  rewrite (_reset_timer_unknown name) by exact Ha. reflexivity.
Qed.

(** *** Loops *)

Lemma for_each_preserves {A : Type} (P : World -> Prop) (body : A -> M unit)
  (items : list A) :
  (forall item w, P w -> P (body item w).1) ->
  forall w, P w -> P (for_each items body w).1.
Proof.
  intros Hbody. induction items as [|item rest IH]; intros w Hw; [exact Hw|].
  cbn [for_each]. unfold mbind, M_bind.
  pose proof (Hbody item w Hw) as Hw'.
  destruct (body item w) as [w' [[]|e]]; [apply IH|]; exact Hw'.
Qed.

Lemma for_each_relates {A : Type} (R : World -> World -> Prop)
  (body : A -> M unit) (items : list A) :
  (forall w, R w w) ->
  (forall w1 w2 w3, R w1 w2 -> R w2 w3 -> R w1 w3) ->
  (forall item w, R w (body item w).1) ->
  forall w, R w (for_each items body w).1.
Proof.
  intros Hrefl Htrans Hbody.
  induction items as [|item rest IH]; intros w; [apply Hrefl|].
  cbn [for_each]. unfold mbind, M_bind.
  pose proof (Hbody item w) as Hw'.
  destruct (body item w) as [w' [[]|e]]; [|exact Hw'].
  exact (Htrans _ _ _ Hw' (IH w')).
Qed.

(** *** Cancelling a handle in the store *)

Lemma lookup_cancel_1 (l : list TimerHandle) (i j : nat) (h : TimerHandle) :
  l !! j = Some h ->
  alter cancel_handle i l !! j =
    Some (if decide (i = j) then cancel_handle h else h).
Proof.
  intros Hj. destruct (decide (i = j)) as [<-|Hne].
  - rewrite list_lookup_alter_eq, Hj. reflexivity.
  - rewrite list_lookup_alter_ne by exact Hne. exact Hj.
Qed.

Lemma lookup_cancel_2 (l : list TimerHandle) (i j : nat) (h' : TimerHandle) :
  alter cancel_handle i l !! j = Some h' ->
  exists h, l !! j = Some h /\
            h' = if decide (i = j) then cancel_handle h else h.
Proof.
  intros Hj. destruct (l !! j) as [h|] eqn:Hl.
  - exists h. split; [reflexivity|].
    rewrite (lookup_cancel_1 _ _ _ _ Hl) in Hj. congruence.
  - apply lookup_ge_None in Hl.
    apply lookup_lt_Some in Hj. rewrite length_alter in Hj. lia.
Qed.

(** *** The invariant is kept *)

Lemma reset_slot_none (a : attr) (w : World) :
  slot a (self (reset a w)) = None.
Proof.
  unfold reset. destruct (slot a (self w)) eqn:Ha; [|exact Ha].
  cbn. apply slot_set_slot_eq.
Qed.

Lemma reset_slot_other (a b : attr) (w : World) :
  b <> a -> slot b (self (reset a w)) = slot b (self w).
Proof.
  intros Hne. unfold reset. destruct (slot a (self w)); [|reflexivity].
  cbn. apply slot_set_slot_ne. exact Hne.
Qed.

Lemma reset_inv (a : attr) (w : World) :
  timers_inv w -> timers_inv (reset a w).
Proof.
  intros [Hheld Hunc]. unfold reset.
  destruct (slot a (self w)) as [i|] eqn:Ha; [|split; assumption].
  split.
  - intros b j Hb. cbn in *.
    destruct (decide (b = a)) as [->|Hne].
    { rewrite slot_set_slot_eq in Hb. discriminate. }
    rewrite slot_set_slot_ne in Hb by exact Hne.
    destruct (Hheld b j Hb) as (h & Hj & Ho).
    rewrite (lookup_cancel_1 _ i _ _ Hj). eexists. split; [reflexivity|].
    destruct (decide (i = j)); exact Ho.
  - intros j h' b Hj Ho Hc. cbn in *.
    destruct (lookup_cancel_2 _ _ _ _ Hj) as (h & Hl & ->).
    destruct (decide (i = j)) as [<-|Hne]; [discriminate Hc|].
    pose proof (Hunc j h b Hl Ho Hc) as Hb.
    destruct (decide (b = a)) as [->|Hba]; [congruence|].
    rewrite slot_set_slot_ne by exact Hba. exact Hb.
Qed.

Lemma schedule_inv (a : attr) (t : Q) (cb : nat) (w : World) :
  timers_inv w -> slot a (self w) = None -> timers_inv (schedule a t cb w).
Proof.
  intros [Hheld Hunc] Ha. split.
  - intros b j Hb. cbn in *.
    destruct (decide (b = a)) as [->|Hne].
    + rewrite slot_set_slot_eq in Hb. injection Hb as <-.
      eexists. split; [apply list_lookup_middle; reflexivity | reflexivity].
    + rewrite slot_set_slot_ne in Hb by exact Hne.
      destruct (Hheld b j Hb) as (h & Hj & Ho).
      exists h. split; [|exact Ho].
      rewrite lookup_app_l; [exact Hj | eapply lookup_lt_Some; exact Hj].
  - intros j h b Hj Ho Hc. cbn in *.
    apply lookup_app_Some in Hj as [Hj | [Hlen Hj]].
    + pose proof (Hunc j h b Hj Ho Hc) as Hb.
      destruct (decide (b = a)) as [->|Hba]; [congruence|].
      rewrite slot_set_slot_ne by exact Hba. exact Hb.
    + destruct (j - length (scheduled (loop w)))%nat as [|k] eqn:Hk;
        [|destruct k; discriminate Hj].
      injection Hj as <-. cbn in Ho. injection Ho as <-.
      rewrite slot_set_slot_eq. f_equal. lia.
Qed.

Lemma arm_attr_inv (lease : Lease) (a : attr) (cb : nat) (w : World) :
  timers_inv w -> timers_inv (arm_attr lease a cb w).
Proof.
  intros Hinv. unfold arm_attr.
  destruct (armed_time (lease_in a lease)) as [t|].
  - apply schedule_inv; [apply reset_inv; exact Hinv | apply reset_slot_none].
  - apply reset_inv. exact Hinv.
Qed.

Lemma arm_one_inv (lease : Lease) (item : string * nat) (w : World) :
  timers_inv w -> timers_inv (arm_one lease item w).1.
Proof.
  intros Hinv. destruct item as [name cb].
  destruct (attr_of_name name) as [a|] eqn:Ha.
  - rewrite (arm_one_slot lease name cb a w Ha). apply arm_attr_inv, Hinv.
  - rewrite (arm_one_unknown lease name cb w Ha). exact Hinv.
Qed.

Lemma cancel_inv (w : World) : timers_inv w -> timers_inv (cancel w).1.
Proof.
  intros Hinv. rewrite cancel_resets. cbn.
  apply reset_inv, reset_inv, reset_inv, Hinv.
Qed.

Lemma arm_inv (lease : Lease) (callbacks : list (string * nat)) (w : World) :
  timers_inv w -> timers_inv (arm lease callbacks w).1.
Proof.
  intros Hinv. unfold arm, mbind, M_bind.
  pose proof (cancel_inv w Hinv) as Hc. rewrite cancel_resets in *.
  cbn in Hc. apply for_each_preserves; [|exact Hc].
  intros item w'. apply arm_one_inv.
Qed.

Lemma advance_inv (dt : Q) (w : World) :
  timers_inv w -> timers_inv (mkWorld (self w) (advance dt (loop w)) (log w)).
Proof.
  intros [Hheld Hunc]. split.
  - intros a i Ha. cbn in *. destruct (Hheld a i Ha) as (h & Hi & Ho).
    rewrite list_lookup_fmap, Hi. cbn. eexists. split; [reflexivity|].
    destruct (due _ h); exact Ho.
  - intros i h' a Hi Ho Hc. cbn in *.
    rewrite list_lookup_fmap in Hi.
    destruct (scheduled (loop w) !! i) as [h|] eqn:Hl; [|discriminate].
    cbn in Hi. injection Hi as <-.
    apply (Hunc i h a Hl); destruct (due _ h); assumption.
Qed.

Lemma other_call_later_inv (delay : Q) (cb : nat) (w : World) :
  timers_inv w -> timers_inv (call_later delay cb None w).1.
Proof.
  intros [Hheld Hunc]. split.
  - intros a i Ha. cbn in *. destruct (Hheld a i Ha) as (h & Hi & Ho).
    exists h. split; [|exact Ho].
    rewrite lookup_app_l; [exact Hi | eapply lookup_lt_Some; exact Hi].
  - intros i h a Hi Ho Hc. cbn in *.
    apply lookup_app_Some in Hi as [Hi | [Hlen Hi]].
    + exact (Hunc i h a Hi Ho Hc).
    + destruct (i - length (scheduled (loop w)))%nat as [|k];
        [|destruct k; discriminate Hi].
      injection Hi as <-. discriminate Ho.
Qed.

Lemma other_cancel_inv (i : nat) (h : TimerHandle) (w : World) :
  scheduled (loop w) !! i = Some h -> origin h = None ->
  timers_inv w -> timers_inv (timer_cancel i w).1.
Proof.
  intros Hi Hforeign [Hheld Hunc]. split.
  - intros a j Ha. cbn in *. destruct (Hheld a j Ha) as (hj & Hj & Ho).
    rewrite (lookup_cancel_1 _ i _ _ Hj). eexists. split; [reflexivity|].
    destruct (decide (i = j)); exact Ho.
  - intros j h' a Hj Ho Hc. cbn in *.
    destruct (lookup_cancel_2 _ _ _ _ Hj) as (hj & Hl & ->).
    destruct (decide (i = j)) as [<-|Hne]; [discriminate Hc|].
    exact (Hunc j hj a Hl Ho Hc).
Qed.

Lemma step_inv (w w' : World) : step w w' -> timers_inv w -> timers_inv w'.
Proof.
  intros Hstep Hinv. destruct Hstep.
  - apply arm_inv, Hinv.
  - apply cancel_inv, Hinv.
  - apply advance_inv, Hinv.
  - apply other_call_later_inv, Hinv.
  - eapply other_cancel_inv; eassumption.
Qed.

Lemma steps_inv (w w' : World) : steps w w' -> timers_inv w -> timers_inv w'.
Proof.
  induction 1 as [|w1 w2 w3 _ IH Hstep]; intros Hinv; [exact Hinv|].
  eapply step_inv; [exact Hstep | apply IH, Hinv].
Qed.

Lemma initial_inv (l : EventLoop) : foreign l -> timers_inv (initial l).
Proof.
  intros Hl. split.
  - intros a i Ha. destruct a; discriminate Ha.
  - intros i h a Hi Ho _. cbn in Hi.
    unfold foreign in Hl. rewrite Forall_lookup in Hl.
    rewrite (Hl i h Hi) in Ho. discriminate Ho.
Qed.

Lemma reachable_inv (w : World) : reachable w -> timers_inv w.
Proof.
  intros (l & Hl & Hsteps). eapply steps_inv; [exact Hsteps|].
  apply initial_inv, Hl.
Qed.

(** *** Handles over time *)

Lemma quiet_refl (w : World) : quiet w w.
Proof. intros i h Hi. exists h. repeat split; auto. Qed.

Lemma quiet_trans (w1 w2 w3 : World) : quiet w1 w2 -> quiet w2 w3 -> quiet w1 w3.
Proof.
  intros H12 H23 i h Hi.
  destruct (H12 i h Hi) as (h2 & Hi2 & Ho2 & Hcb2 & Hw2 & Hf2 & Hc2).
  destruct (H23 i h2 Hi2) as (h3 & Hi3 & Ho3 & Hcb3 & Hw3 & Hf3 & Hc3).
  exists h3. repeat split; try congruence. auto.
Qed.

Lemma evolves_refl (w : World) : evolves w w.
Proof. intros i h Hi. exists h. repeat split; auto. Qed.

Lemma evolves_trans (w1 w2 w3 : World) :
  evolves w1 w2 -> evolves w2 w3 -> evolves w1 w3.
Proof.
  intros H12 H23 i h Hi.
  destruct (H12 i h Hi) as (h2 & Hi2 & Ho2 & Hcb2 & Hw2 & Hc2).
  destruct (H23 i h2 Hi2) as (h3 & Hi3 & Ho3 & Hcb3 & Hw3 & Hc3).
  exists h3. split; [exact Hi3|]. do 3 (split; [congruence|]).
  intros Hc. destruct (Hc2 Hc) as [Hc2' Hf2].
  destruct (Hc3 Hc2') as [Hc3' Hf3]. split; congruence.
Qed.

Lemma quiet_evolves (w w' : World) : quiet w w' -> evolves w w'.
Proof.
  intros Hq i h Hi. destruct (Hq i h Hi) as (h' & Hi' & Ho & Hcb & Hw & Hf & Hc).
  exists h'. repeat split; auto.
Qed.

Lemma cancel_at_quiet (t : Timers) (i : nat) (lg : list log_record)
  (w : World) :
  quiet w (mkWorld t (mkLoop (now (loop w))
                        (alter cancel_handle i (scheduled (loop w)))
                        (tasks (loop w))) lg).
Proof.
  intros j h Hj. cbn. rewrite (lookup_cancel_1 _ i _ _ Hj).
  eexists. split; [reflexivity|].
  destruct (decide (i = j)); repeat split; auto.
Qed.

Lemma reset_quiet (a : attr) (w : World) : quiet w (reset a w).
Proof.
  unfold reset. destruct (slot a (self w)); [|apply quiet_refl].
  apply cancel_at_quiet.
Qed.

Lemma schedule_quiet (a : attr) (t : Q) (cb : nat) (w : World) :
  quiet w (schedule a t cb w).
Proof.
  intros i h Hi. exists h. cbn.
  rewrite lookup_app_l by (eapply lookup_lt_Some; exact Hi).
  repeat split; auto.
Qed.

Lemma arm_attr_quiet (lease : Lease) (a : attr) (cb : nat) (w : World) :
  quiet w (arm_attr lease a cb w).
Proof.
  unfold arm_attr. destruct (armed_time (lease_in a lease)).
  - eapply quiet_trans; [apply reset_quiet | apply schedule_quiet].
  - apply reset_quiet.
Qed.

Lemma arm_one_quiet (lease : Lease) (item : string * nat) (w : World) :
  quiet w (arm_one lease item w).1.
Proof.
  destruct item as [name cb]. destruct (attr_of_name name) as [a|] eqn:Ha.
  - rewrite (arm_one_slot lease name cb a w Ha). apply arm_attr_quiet.
  - rewrite (arm_one_unknown lease name cb w Ha). apply quiet_refl.
Qed.

Lemma arm_loop_quiet (lease : Lease) (callbacks : list (string * nat))
  (w : World) :
  quiet w (for_each callbacks (arm_one lease) w).1.
Proof.
  apply for_each_relates;
    [apply quiet_refl | apply quiet_trans | apply arm_one_quiet].
Qed.

Lemma cancel_quiet (w : World) : quiet w (cancel w).1.
Proof.
  rewrite cancel_resets. cbn.
  eapply quiet_trans; [|apply reset_quiet].
  eapply quiet_trans; [|apply reset_quiet]. apply reset_quiet.
Qed.

Lemma arm_after_cancel (lease : Lease) (callbacks : list (string * nat))
  (w : World) :
  arm lease callbacks w = for_each callbacks (arm_one lease) (cancel w).1.
Proof.
  unfold arm, mbind, M_bind. rewrite cancel_resets. reflexivity.
Qed.

Lemma arm_quiet (lease : Lease) (callbacks : list (string * nat)) (w : World) :
  quiet w (arm lease callbacks w).1.
Proof.
  rewrite arm_after_cancel.
  eapply quiet_trans; [apply cancel_quiet | apply arm_loop_quiet].
Qed.

Lemma advance_evolves (dt : Q) (w : World) :
  evolves w (mkWorld (self w) (advance dt (loop w)) (log w)).
Proof.
  intros i h Hi. cbn. rewrite list_lookup_fmap, Hi. cbn.
  eexists. split; [reflexivity|].
  unfold due, live.
  destruct (cancelled h) eqn:Hc; cbn;
    [|destruct (negb (fired h) && _)]; repeat split; auto; discriminate.
Qed.

Lemma step_evolves (w w' : World) : step w w' -> evolves w w'.
Proof.
  intros Hstep. destruct Hstep.
  - apply quiet_evolves, arm_quiet.
  - apply quiet_evolves, cancel_quiet.
  - apply advance_evolves.
  - apply quiet_evolves. intros j hj Hj. exists hj. cbn.
    rewrite lookup_app_l by (eapply lookup_lt_Some; exact Hj).
    repeat split; auto.
  - apply quiet_evolves, cancel_at_quiet.
Qed.

Lemma steps_evolves (w w' : World) : steps w w' -> evolves w w'.
Proof.
  induction 1 as [|w1 w2 w3 _ IH Hstep]; [apply evolves_refl|].
  eapply evolves_trans; [exact IH | apply step_evolves, Hstep].
Qed.

Lemma cancel_length (w : World) :
  length (scheduled (loop (cancel w).1)) = length (scheduled (loop w)).
Proof.
  rewrite cancel_resets. cbn.
  assert (Hreset : forall a w',
             length (scheduled (loop (reset a w')))
             = length (scheduled (loop w'))).
  { intros a w'. unfold reset. destruct (slot a (self w')); [|reflexivity].
    cbn. apply length_alter. }
  rewrite !Hreset. reflexivity.
Qed.

Lemma cancel_slot_none (a : attr) (w : World) :
  slot a (self (cancel w).1) = None.
Proof.
  rewrite cancel_resets. cbn. destruct a.
  - rewrite !reset_slot_other by discriminate. apply reset_slot_none.
  - rewrite reset_slot_other by discriminate. apply reset_slot_none.
  - apply reset_slot_none.
Qed.

Lemma inv_one_live_per_slot (w : World) : timers_inv w -> one_live_per_slot w.
Proof.
  intros [_ Hunc] i j hi hj a Hi Hj Hoi Hoj Hli Hlj.
  unfold live in *. apply andb_prop in Hli as [Hci _], Hlj as [Hcj _].
  apply negb_true_iff in Hci, Hcj.
  pose proof (Hunc i hi a Hi Hoi Hci). pose proof (Hunc j hj a Hj Hoj Hcj).
  congruence.
Qed.

(** C5: on a [Timers] object that began empty and has since been armed and
    cancelled any number of times while time passed, [arm] first runs
    [cancel], which schedules nothing and leaves every handle this object
    armed earlier cancelled; the handles [arm] then schedules are new ones.
    After [arm], and in every later state, at most one live handle is armed
    for a slot, and no handle armed before this call ever runs: it stays
    cancelled and its fired flag stays as it was before the call. *)
Theorem arm_cancels_earlier_timers (w : World) (lease : Lease)
  (callbacks : list (string * nat)) :
  reachable w ->
  let w1 := (cancel w).1 in
  let w2 := (arm lease callbacks w).1 in
  arm lease callbacks w = for_each callbacks (arm_one lease) w1 /\
  length (scheduled (loop w1)) = length (scheduled (loop w)) /\
  (forall i h, scheduled (loop w1) !! i = Some h -> is_Some (origin h) ->
               cancelled h = true) /\
  (forall i h, (i < length (scheduled (loop w)))%nat ->
               scheduled (loop w2) !! i = Some h -> is_Some (origin h) ->
               cancelled h = true) /\
  (forall w3, steps w2 w3 ->
     one_live_per_slot w3 /\
     forall i h, scheduled (loop w) !! i = Some h -> is_Some (origin h) ->
       exists h3, scheduled (loop w3) !! i = Some h3 /\
                  cancelled h3 = true /\ fired h3 = fired h).
Proof.
  intros Hreach w1 w2.
  assert (Hw2 : w2 = (for_each callbacks (arm_one lease) w1).1).
  { unfold w2, w1. rewrite arm_after_cancel. reflexivity. }
  pose proof (reachable_inv w Hreach) as Hinv.
  pose proof (cancel_inv w Hinv) as Hinv1. fold w1 in Hinv1.
  assert (Hcancelled : forall i h, scheduled (loop w1) !! i = Some h ->
                                   is_Some (origin h) -> cancelled h = true).
  { intros i h Hi [a Ha]. destruct (cancelled h) eqn:Hc; [reflexivity|].
    destruct Hinv1 as [_ Hunc]. pose proof (Hunc i h a Hi Ha Hc) as Hslot.
    unfold w1 in Hslot. rewrite cancel_slot_none in Hslot. discriminate. }
  assert (Hold : forall i h, scheduled (loop w) !! i = Some h ->
                   is_Some (origin h) ->
                   exists h2, scheduled (loop w2) !! i = Some h2 /\
                              cancelled h2 = true /\ fired h2 = fired h).
  { intros i h Hi Ho.
    destruct (cancel_quiet w i h Hi) as (h1 & Hi1 & Ho1 & _ & _ & Hf1 & _).
    fold w1 in Hi1.
    assert (Hc1 : cancelled h1 = true).
    { apply (Hcancelled i h1 Hi1). rewrite Ho1. exact Ho. }
    destruct (arm_loop_quiet lease callbacks w1 i h1 Hi1)
      as (h2 & Hi2 & _ & _ & _ & Hf2 & Hc2).
    rewrite <- Hw2 in Hi2.
    exists h2. split; [exact Hi2|]. split; [auto | congruence]. }
  split; [apply arm_after_cancel|]. split; [apply cancel_length|].
  split; [exact Hcancelled|]. split.
  - intros i h2 Hlt Hi2 Ho2.
    destruct (lookup_lt_is_Some_2 _ _ Hlt) as [h Hi].
    destruct (arm_quiet lease callbacks w i h Hi)
      as (h2' & Hi2' & Ho2' & _).
    fold w2 in Hi2'. rewrite Hi2 in Hi2'. injection Hi2' as <-.
    destruct (Hold i h Hi) as (h2' & Hi2' & Hc2 & _);
      [rewrite <- Ho2'; exact Ho2|].
    congruence.
  - intros w3 Hsteps. split.
    + apply inv_one_live_per_slot. eapply steps_inv; [exact Hsteps|].
      apply arm_inv, Hinv.
    + intros i h Hi Ho. destruct (Hold i h Hi Ho) as (h2 & Hi2 & Hc2 & Hf2).
      destruct (steps_evolves w2 w3 Hsteps i h2 Hi2)
        as (h3 & Hi3 & _ & _ & _ & Hc3).
      destruct (Hc3 Hc2) as [Hc3' Hf3].
      exists h3. split; [exact Hi3|]. split; [exact Hc3' | congruence].
Qed.

Lemma arm_cancels_earlier_timers_witness :
  let w := Examples.armed_once in
  let w1 := (cancel w).1 in
  let w2 := (arm Examples.lease1 Examples.callbacks3 w).1 in
  arm Examples.lease1 Examples.callbacks3 w =
    for_each Examples.callbacks3 (arm_one Examples.lease1) w1 /\
  length (scheduled (loop w1)) = length (scheduled (loop w)) /\
  (forall i h, scheduled (loop w1) !! i = Some h -> is_Some (origin h) ->
               cancelled h = true) /\
  (forall i h, (i < length (scheduled (loop w)))%nat ->
               scheduled (loop w2) !! i = Some h -> is_Some (origin h) ->
               cancelled h = true) /\
  (forall w3, steps w2 w3 ->
     one_live_per_slot w3 /\
     forall i h, scheduled (loop w) !! i = Some h -> is_Some (origin h) ->
       exists h3, scheduled (loop w3) !! i = Some h3 /\
                  cancelled h3 = true /\ fired h3 = fired h).
Proof.
  apply (arm_cancels_earlier_timers Examples.armed_once Examples.lease1
           Examples.callbacks3).
  exists Examples.empty_loop. split; [constructor|].
  eapply steps_step; [apply steps_refl|].
  apply (step_arm Examples.lease1 Examples.callbacks3).
Defined.

(** *** Which timers [arm] schedules *)

Lemma armed_time_Some (lease_time : option Q) (t : Q) :
  armed_time lease_time = Some t <-> lease_time = Some t /\ (0 < t)%Q.
Proof.
  unfold armed_time, not_set, in_the_past.
  destruct lease_time as [u|]; cbn; [|split; [discriminate | intros [[=] _]]].
  destruct (Qeq_bool u 0) eqn:Heq.
  { split; [discriminate|]. intros [[= ->] Hlt].
    apply Qeq_bool_eq in Heq. apply Qlt_not_eq in Hlt.
    exfalso. apply Hlt. symmetry. exact Heq. }
  apply Qeq_bool_neq in Heq.
  destruct (Qle_bool 0 u) eqn:Hle; cbn.
  - apply Qle_bool_iff in Hle. split.
    + intros [= <-]. split; [reflexivity|].
      destruct (Qle_lt_or_eq _ _ Hle) as [Hlt|He]; [exact Hlt|].
      exfalso. apply Heq. symmetry. exact He.
    + intros [[= ->] _]. reflexivity.
  - split; [discriminate|]. intros [[= ->] Hlt].
    apply Qlt_le_weak, Qle_bool_iff in Hlt. congruence.
Qed.

Lemma armed_time_None (lease_time : option Q) :
  armed_time lease_time = None <->
  lease_time = None \/ exists t, lease_time = Some t /\ (t <= 0)%Q.
Proof.
  split.
  - intros Hnone. destruct lease_time as [t|]; [|left; reflexivity].
    right. exists t. split; [reflexivity|].
    apply Qnot_lt_le. intros Hlt.
    assert (armed_time (Some t) = Some t) as Hsome
      by (apply armed_time_Some; split; [reflexivity | exact Hlt]).
    congruence.
  - intros [-> | (t & -> & Hle)]; [reflexivity|].
    destruct (armed_time (Some t)) as [u|] eqn:Hu; [|reflexivity].
    apply armed_time_Some in Hu as [[= <-] Hlt].
    exfalso. exact (Qle_not_lt _ _ Hle Hlt).
Qed.

Lemma reset_now (a : attr) (w : World) :
  now (loop (reset a w)) = now (loop w).
Proof. unfold reset. destruct (slot a (self w)); reflexivity. Qed.

Lemma reset_length (a : attr) (w : World) :
  length (scheduled (loop (reset a w))) = length (scheduled (loop w)).
Proof.
  unfold reset. destruct (slot a (self w)); [|reflexivity].
  cbn. apply length_alter.
Qed.

Lemma reset_log (a : attr) (w : World) :
  exists new, log (reset a w) = log w ++ new /\ Forall is_canceling new.
Proof.
  unfold reset. destruct (slot a (self w)) as [i|].
  - cbn. destruct (from_option cancelled true _).
    + exists []. rewrite app_nil_r. split; [reflexivity | constructor].
    + eexists. split; [reflexivity|]. repeat constructor.
  - exists []. rewrite app_nil_r. split; [reflexivity | constructor].
Qed.

Lemma cancel_now (w : World) : now (loop (cancel w).1) = now (loop w).
Proof. rewrite cancel_resets. cbn. rewrite !reset_now. reflexivity. Qed.

Lemma cancel_log (w : World) :
  exists new, log (cancel w).1 = log w ++ new /\ Forall is_canceling new.
Proof.
  rewrite cancel_resets. cbn.
  destruct (reset_log Renewal w) as (n1 & H1 & F1).
  destruct (reset_log Rebinding (reset Renewal w)) as (n2 & H2 & F2).
  destruct (reset_log Expiration (reset Rebinding (reset Renewal w)))
    as (n3 & H3 & F3).
  exists (n1 ++ n2 ++ n3). split.
  - rewrite H3, H2, H1, <- !app_assoc. reflexivity.
  - rewrite !Forall_app. auto.
Qed.

Lemma armed_ok_cancel (lease : Lease) (w : World) :
  armed_ok (length (scheduled (loop w))) (now (loop w)) (log w) lease []
    (cancel w).1.
Proof.
  split; [apply cancel_now|]. split; [rewrite cancel_length; lia|]. split.
  - destruct (cancel_log w) as (new & Hnew & Hcan). exists new.
    split; [exact Hnew|]. split.
    + intros a Ha. apply elem_of_nil in Ha as [].
    + eapply Forall_impl; [exact Hcan|]. cbn. auto.
  - intros a. rewrite cancel_slot_none. left. apply not_elem_of_nil.
Qed.

(** One round of the loop, field by field. *)
Lemma arm_attr_slot (lease : Lease) (b : attr) (cb : nat) (w : World) :
  slot b (self (arm_attr lease b cb w)) =
    match armed_time (lease_in b lease) with
    | Some _ => Some (length (scheduled (loop w)))
    | None => None
    end.
Proof.
  unfold arm_attr. destruct (armed_time (lease_in b lease)); cbn.
  - rewrite slot_set_slot_eq, reset_length. reflexivity.
  - apply reset_slot_none.
Qed.

Lemma arm_attr_slot_other (lease : Lease) (a b : attr) (cb : nat) (w : World) :
  a <> b -> slot a (self (arm_attr lease b cb w)) = slot a (self w).
Proof.
  intros Hab. unfold arm_attr.
  destruct (armed_time (lease_in b lease)); cbn;
    rewrite ?slot_set_slot_ne by exact Hab; apply reset_slot_other, Hab.
Qed.

Lemma arm_attr_now (lease : Lease) (b : attr) (cb : nat) (w : World) :
  now (loop (arm_attr lease b cb w)) = now (loop w).
Proof.
  unfold arm_attr. destruct (armed_time (lease_in b lease)); cbn;
    apply reset_now.
Qed.

Lemma arm_attr_length (lease : Lease) (b : attr) (cb : nat) (w : World) :
  (length (scheduled (loop w))
   <= length (scheduled (loop (arm_attr lease b cb w))))%nat.
Proof.
  unfold arm_attr. destruct (armed_time (lease_in b lease)); cbn;
    rewrite ?length_app, reset_length; lia.
Qed.

Lemma arm_attr_new (lease : Lease) (b : attr) (cb : nat) (w : World) (t : Q) :
  armed_time (lease_in b lease) = Some t ->
  scheduled (loop (arm_attr lease b cb w)) !! length (scheduled (loop w)) =
    Some (mkHandle (now (loop w) + t)%Q cb false false (Some b)).
Proof.
  intros Ht. unfold arm_attr. rewrite Ht. cbn.
  rewrite reset_now, <- (reset_length b w).
  apply list_lookup_middle. reflexivity.
Qed.

Lemma arm_attr_kept (lease : Lease) (b : attr) (cb : nat) (w : World)
  (i : nat) (h : TimerHandle) :
  slot b (self w) <> Some i ->
  scheduled (loop w) !! i = Some h ->
  scheduled (loop (arm_attr lease b cb w)) !! i = Some h.
Proof.
  intros Hb Hi.
  assert (Hreset : scheduled (loop (reset b w)) !! i = Some h).
  { unfold reset. destruct (slot b (self w)) as [ib|]; [|exact Hi]. cbn.
    rewrite list_lookup_alter_ne; [exact Hi | congruence]. }
  unfold arm_attr. destruct (armed_time (lease_in b lease)); cbn;
    [|exact Hreset].
  rewrite lookup_app_l; [exact Hreset | eapply lookup_lt_Some; exact Hreset].
Qed.

Lemma arm_attr_log (lease : Lease) (b : attr) (cb : nat) (w : World) :
  exists pre,
    log (arm_attr lease b cb w) = log w ++ pre ++ [arm_record lease b] /\
    Forall is_canceling pre.
Proof.
  destruct (reset_log b w) as (pre & Hpre & Hcan). exists pre.
  split; [|exact Hcan]. unfold arm_attr, arm_record.
  destruct (armed_time (lease_in b lease)); cbn;
    rewrite Hpre, <- app_assoc; reflexivity.
Qed.

Lemma armed_ok_arm_attr (n0 : nat) (now0 : Q) (log0 : list log_record)
  (lease : Lease) (done : list (string * nat)) (name : string) (cb : nat)
  (b : attr) (w : World) :
  attr_of_name name = Some b ->
  armed_ok n0 now0 log0 lease done w ->
  armed_ok n0 now0 log0 lease (done ++ [(name, cb)]) (arm_attr lease b cb w).
Proof.
  intros Hname (Hnow & Hn0 & (new & Hlog & Hnew & Hall) & Hslots).
  assert (Hnamed : forall a, a ∈ named (done ++ [(name, cb)]) <->
                             a ∈ named done \/ a = b).
  { intros a. unfold named. rewrite omap_app, elem_of_app. cbn.
    rewrite Hname. cbn. rewrite list_elem_of_singleton. reflexivity. }
  split; [rewrite arm_attr_now; exact Hnow|].
  split; [pose proof (arm_attr_length lease b cb w); lia|].
  split.
  { destruct (arm_attr_log lease b cb w) as (pre & Hpre & Hcan).
    exists (new ++ pre ++ [arm_record lease b]).
    split; [rewrite Hpre, Hlog, <- app_assoc; reflexivity|]. split.
    - intros a Ha. apply Hnamed in Ha as [Ha | ->].
      + apply elem_of_app. left. apply Hnew, Ha.
      + rewrite !elem_of_app, list_elem_of_singleton. auto.
    - rewrite !Forall_app. split; [|split].
      + eapply Forall_impl; [exact Hall|]. cbn.
        intros r [Hr | (a & Ha & Hr)]; [left; exact Hr | right].
        exists a. split; [apply Hnamed; left; exact Ha | exact Hr].
      + eapply Forall_impl; [exact Hcan|]. cbn. auto.
      + constructor; [|constructor]. right. exists b.
        split; [apply Hnamed; right; reflexivity | reflexivity]. }
  intros a. destruct (decide (a = b)) as [->|Hab].
  - rewrite arm_attr_slot.
    destruct (armed_time (lease_in b lease)) as [t|] eqn:Ht;
      [|right; reflexivity].
    split; [exact Hn0|]. eexists _, t, name, cb.
    split; [apply (arm_attr_new lease b cb w t Ht)|].
    split; [reflexivity|]. split; [reflexivity|]. split; [reflexivity|].
    split; [cbn; rewrite Hnow; reflexivity|].
    split; [apply elem_of_app; right; apply list_elem_of_singleton;
            reflexivity|].
    split; [exact Hname | reflexivity].
  - rewrite arm_attr_slot_other by exact Hab.
    pose proof (Hslots a) as Hsa.
    destruct (slot a (self w)) as [i|] eqn:Ha.
    + destruct Hsa as (Hi0 & h & ta & na & ca & Hi & Hl & Ho & Hta & Hw
                       & Hin & Hna & Hcb).
      split; [exact Hi0|]. exists h, ta, na, ca. split.
      { apply arm_attr_kept; [|exact Hi]. intros Hb.
        pose proof (Hslots b) as Hsb. rewrite Hb in Hsb.
        destruct Hsb as (_ & hb & ? & ? & ? & Hib & _ & Hob & _).
        congruence. }
      repeat (split; [assumption|]).
      split; [apply elem_of_app; left; exact Hin|]. split; assumption.
    + destruct Hsa as [Hnot | Hnone]; [left | right; exact Hnone].
      intros Hin. apply Hnamed in Hin as [Hin | Heq]; contradiction.
Qed.

Lemma armed_ok_loop (n0 : nat) (now0 : Q) (log0 : list log_record)
  (lease : Lease) (callbacks : list (string * nat)) :
  Forall (fun item => is_Some (attr_of_name item.1)) callbacks ->
  forall (done : list (string * nat)) (w : World),
    armed_ok n0 now0 log0 lease done w ->
    (for_each callbacks (arm_one lease) w).2 = Ok tt /\
    armed_ok n0 now0 log0 lease (done ++ callbacks)
      (for_each callbacks (arm_one lease) w).1.
Proof.
  induction 1 as [|[name cb] rest [b Hb] _ IH]; intros done w Hok.
  - rewrite app_nil_r. split; [reflexivity | exact Hok].
  - cbn [for_each]. unfold mbind, M_bind. cbn in Hb.
    rewrite (arm_one_slot lease name cb b w Hb).
    replace (done ++ (name, cb) :: rest) with ((done ++ [(name, cb)]) ++ rest)
      by (rewrite <- app_assoc; reflexivity).
    apply IH. apply armed_ok_arm_attr; assumption.
Qed.

Lemma arm_record_cases (lease : Lease) (a : attr) :
  match lease_in a lease with
  | None => arm_record lease a = LeaseDoesNotSet (name_of a)
  | Some t =>
      ((t == 0)%Q -> arm_record lease a = LeaseDoesNotSet (name_of a)) /\
      ((t < 0)%Q -> arm_record lease a = LeaseInThePast (name_of a)) /\
      ((0 < t)%Q -> arm_record lease a = Scheduling (name_of a) t)
  end.
Proof.
  unfold arm_record, skipped, armed_time, not_set, in_the_past.
  destruct (lease_in a lease) as [t|]; [|reflexivity]. cbn.
  destruct (Qeq_bool t 0) eqn:Heq.
  - apply Qeq_bool_eq in Heq. split; [reflexivity|]. split; intros Hlt.
    + apply Qlt_not_eq in Hlt. contradiction.
    + apply Qlt_not_eq in Hlt. exfalso. apply Hlt. symmetry. exact Heq.
  - apply Qeq_bool_neq in Heq. split; [contradiction|].
    destruct (Qle_bool 0 t) eqn:Hle; cbn.
    + apply Qle_bool_iff in Hle. split; [|reflexivity].
      intros Hlt. exfalso. exact (Qle_not_lt _ _ Hle Hlt).
    + split; [reflexivity|]. intros Hlt.
      apply Qlt_le_weak, Qle_bool_iff in Hlt. congruence.
Qed.

(** C6: when every keyword name is one of the three slots, [arm] returns
    without error, and a slot holds a handle afterwards if and only if a
    callback was supplied for it and the lease's time-remaining value for it
    is present and strictly positive; that handle is live, was scheduled in
    this call, is due that long from now and runs the supplied callback.  A
    slot with an absent, zero or negative value holds nothing; for an absent
    or zero value that the lease does not set the time is logged, for a
    negative one that it is in the past, both at debug level, and the only
    records at info level are those of the timers scheduled.  With
    renewal_in = 30, rebinding_in = -5 and expiration_in = 3600 and callbacks
    for all three, exactly renewal and expiration are armed. *)
Theorem arm_schedules_positive_times (w : World) (lease : Lease)
  (callbacks : list (string * nat)) :
  Forall (fun item => is_Some (attr_of_name item.1)) callbacks ->
  let w2 := (arm lease callbacks w).1 in
  (arm lease callbacks w).2 = Ok tt /\
  (forall a,
     is_Some (slot a (self w2)) <->
     a ∈ named callbacks /\
     exists t, lease_in a lease = Some t /\ (0 < t)%Q) /\
  (forall a i,
     slot a (self w2) = Some i ->
     (length (scheduled (loop w)) <= i)%nat /\
     exists h t name cb,
       scheduled (loop w2) !! i = Some h /\ live h = true /\
       origin h = Some a /\ lease_in a lease = Some t /\
       when h = (now (loop w) + t)%Q /\
       (name, cb) ∈ callbacks /\ attr_of_name name = Some a /\
       callback h = cb) /\
  (forall a,
     a ∈ named callbacks ->
     lease_in a lease = None \/
     (exists t, lease_in a lease = Some t /\ (t <= 0)%Q) ->
     slot a (self w2) = None) /\
  (exists new,
     log w2 = log w ++ new /\
     forall a,
       a ∈ named callbacks ->
       match lease_in a lease with
       | None => LeaseDoesNotSet (name_of a) ∈ new
       | Some t =>
           ((t == 0)%Q -> LeaseDoesNotSet (name_of a) ∈ new) /\
           ((t < 0)%Q ->
            LeaseInThePast (name_of a) ∈ new /\
            levelno (LeaseInThePast (name_of a)) = DEBUG) /\
           ((0 < t)%Q -> Scheduling (name_of a) t ∈ new)
       end) /\
  (forall new a t,
     log w2 = log w ++ new -> Scheduling (name_of a) t ∈ new ->
     a ∈ named callbacks /\ lease_in a lease = Some t /\ (0 < t)%Q) /\
  (let r := arm Examples.lease1 Examples.callbacks3
              (initial Examples.empty_loop) in
   r.2 = Ok tt /\
   renewal (self r.1) = Some 0%nat /\
   rebinding (self r.1) = None /\
   expiration (self r.1) = Some 1%nat /\
   length (scheduled (loop r.1)) = 2%nat /\
   log r.1 = [Scheduling "renewal" 30; LeaseInThePast "rebinding";
              Scheduling "expiration" 3600]).
Proof.
  intros Hnames w2.
  destruct (armed_ok_loop (length (scheduled (loop w))) (now (loop w)) (log w)
              lease callbacks Hnames [] (cancel w).1 (armed_ok_cancel lease w))
    as [Hret Hok].
  rewrite <- arm_after_cancel in Hret, Hok. fold w2 in Hok.
  rewrite app_nil_l in Hok. destruct Hok as (_ & _ & Hlog & Hslots).
  split; [exact Hret|]. split; [|split; [|split; [|split; [|split]]]].
  - intros a. pose proof (Hslots a) as Hsa. split.
    + intros [i Hi]. rewrite Hi in Hsa.
      destruct Hsa as (_ & h & t & name & cb & _ & _ & _ & Ht & _ & Hin
                       & Hname & _).
      split.
      * apply list_elem_of_omap. exists (name, cb). split; assumption.
      * exists t. apply armed_time_Some. exact Ht.
    + intros [Hin (t & Ht)]. apply armed_time_Some in Ht.
      destruct (slot a (self w2)); [eexists; reflexivity|].
      destruct Hsa as [Hnot | Hnone]; [contradiction | congruence].
  - intros a i Hi. pose proof (Hslots a) as Hsa. rewrite Hi in Hsa.
    destruct Hsa as (Hi0 & h & t & name & cb & Hh & Hl & Ho & Ht & Hw & Hin
                     & Hname & Hcb).
    split; [exact Hi0|]. exists h, t, name, cb.
    apply armed_time_Some in Ht as [Ht _]. repeat split; assumption.
  - intros a Hin Hnot. apply armed_time_None in Hnot.
    pose proof (Hslots a) as Hsa.
    destruct (slot a (self w2)); [|reflexivity].
    destruct Hsa as (_ & h & t & name & cb & _ & _ & _ & Ht & _). congruence.
  - destruct Hlog as (new & Hnew & Hrec & _). exists new.
    split; [exact Hnew|].
    intros a Ha. pose proof (Hrec a Ha) as Hin.
    pose proof (arm_record_cases lease a) as Hcases.
    destruct (lease_in a lease) as [t|]; [|rewrite <- Hcases; exact Hin].
    destruct Hcases as (Hzero & Hneg & Hpos).
    split; [intros Hz; rewrite <- (Hzero Hz); exact Hin|].
    split; [intros Hn; split; [rewrite <- (Hneg Hn); exact Hin | reflexivity]|].
    intros Hp. rewrite <- (Hpos Hp). exact Hin.
  - intros new' a t Hnew' Hin.
    destruct Hlog as (new & Hnew & _ & Hall).
    rewrite Hnew in Hnew'. apply app_inv_head in Hnew' as <-.
    rewrite Forall_forall in Hall.
    destruct (Hall _ Hin) as [[] | (a' & Ha' & Hr)].
    unfold arm_record in Hr.
    destruct (armed_time (lease_in a' lease)) as [t'|] eqn:Ht;
      [|unfold skipped in Hr; destruct (not_set _); discriminate Hr].
    injection Hr as Hname <-.
    assert (a = a') as <- by (destruct a, a'; done).
    apply armed_time_Some in Ht. tauto.
  - vm_compute. repeat split.
Qed.

Lemma arm_schedules_positive_times_witness :
  let w := initial Examples.empty_loop in
  let w2 := (arm Examples.lease1 Examples.callbacks3 w).1 in
  (arm Examples.lease1 Examples.callbacks3 w).2 = Ok tt /\
  (forall a,
     is_Some (slot a (self w2)) <->
     a ∈ named Examples.callbacks3 /\
     exists t, lease_in a Examples.lease1 = Some t /\ (0 < t)%Q) /\
  (forall a i,
     slot a (self w2) = Some i ->
     (length (scheduled (loop w)) <= i)%nat /\
     exists h t name cb,
       scheduled (loop w2) !! i = Some h /\ live h = true /\
       origin h = Some a /\ lease_in a Examples.lease1 = Some t /\
       when h = (now (loop w) + t)%Q /\
       (name, cb) ∈ Examples.callbacks3 /\ attr_of_name name = Some a /\
       callback h = cb) /\
  (forall a,
     a ∈ named Examples.callbacks3 ->
     lease_in a Examples.lease1 = None \/
     (exists t, lease_in a Examples.lease1 = Some t /\ (t <= 0)%Q) ->
     slot a (self w2) = None) /\
  (exists new,
     log w2 = log w ++ new /\
     forall a,
       a ∈ named Examples.callbacks3 ->
       match lease_in a Examples.lease1 with
       | None => LeaseDoesNotSet (name_of a) ∈ new
       | Some t =>
           ((t == 0)%Q -> LeaseDoesNotSet (name_of a) ∈ new) /\
           ((t < 0)%Q ->
            LeaseInThePast (name_of a) ∈ new /\
            levelno (LeaseInThePast (name_of a)) = DEBUG) /\
           ((0 < t)%Q -> Scheduling (name_of a) t ∈ new)
       end) /\
  (forall new a t,
     log w2 = log w ++ new -> Scheduling (name_of a) t ∈ new ->
     a ∈ named Examples.callbacks3 /\ lease_in a Examples.lease1 = Some t /\ (0 < t)%Q) /\
  (let r := arm Examples.lease1 Examples.callbacks3
              (initial Examples.empty_loop) in
   r.2 = Ok tt /\
   renewal (self r.1) = Some 0%nat /\
   rebinding (self r.1) = None /\
   expiration (self r.1) = Some 1%nat /\
   length (scheduled (loop r.1)) = 2%nat /\
   log r.1 = [Scheduling "renewal" 30; LeaseInThePast "rebinding";
              Scheduling "expiration" 3600]).
Proof.
  apply (arm_schedules_positive_times (initial Examples.empty_loop)
           Examples.lease1 Examples.callbacks3).
  repeat constructor; eexists; reflexivity.
Defined.

End TimersProperties.

(** * Further properties *)

(** ** Transaction ids: tagging, matching, equality *)

Section XidMore.
Import Xid.

(** The random part, for any integer: the value reduced to 32 bits with its
    low nibble cleared. *)
Lemma random_part_value (v : Z) :
  Z.land v 0xFFFFFFF0 = 16 * ((v mod 2 ^ 32) / 16).
Proof.
  set (u := v mod 2 ^ 32).
  assert (Hu : Z.land v 0xFFFFFFF0 = Z.land u 0xFFFFFFF0).
  { unfold u. rewrite <- (Z.land_ones v 32) by lia.
    rewrite <- Z.land_assoc. reflexivity. }
  assert (Hsplit : Z.land u 0xFFFFFFF0 + Z.land u 0xF = u).
  { rewrite <- Z.add_lor_land, <- Z.land_lor_distr_r.
    replace (Z.land (Z.land u 0xFFFFFFF0) (Z.land u 0xF)) with 0.
    - change (Z.lor 0xFFFFFFF0 0xF) with (Z.ones 32).
      rewrite Z.add_0_r, Z.land_ones by lia.
      unfold u. apply Z.mod_mod. lia.
    - rewrite (Z.land_comm u 0xF), Z.land_assoc, random_part_low_nibble.
      reflexivity. }
  assert (Hlow : Z.land u 0xF = u mod 16).
  { change 0xF with (Z.ones 4). rewrite Z.land_ones by lia. reflexivity. }
  rewrite Hu. pose proof (Z.div_mod u 16). lia.
Qed.

Lemma random_part_range (v : Z) :
  0 <= Z.land v 0xFFFFFFF0 <= 0xFFFFFFF0.
Proof.
  rewrite random_part_value.
  pose proof (Z.mod_pos_bound v (2 ^ 32)).
  assert (0 <= (v mod 2 ^ 32) / 16 <= 0xFFFFFFF).
  { split; [apply Z.div_pos; lia|].
    apply Z.lt_succ_r, Z.div_lt_upper_bound; lia. }
  lia.
Qed.

(** Tagging adds the tag to the random part: their bits do not overlap. *)
Lemma tagged_value (v s : Z) :
  0 <= s <= 15 ->
  Z.lor (Z.land v 0xFFFFFFF0) s = Z.land v 0xFFFFFFF0 + s.
Proof.
  intros Hs. rewrite <- Z.add_lor_land.
  replace (Z.land (Z.land v 0xFFFFFFF0) s) with 0; [lia|].
  rewrite <- (tag_low_nibble s Hs) at 1.
  rewrite (Z.land_comm s), Z.land_assoc, random_part_low_nibble.
  reflexivity.
Qed.

Lemma for_state_fields (x x' : Xid) (s : Z) :
  0 <= s <= 15 -> for_state x s = Ok x' ->
  0 <= _value x' < 0xFFFFFFFF /\
  random_part x' = random_part x /\
  Z.land (_value x') 0xF = s.
Proof.
  intros Hs. unfold for_state, __init__, random_part.
  pose proof (random_part_range (_value x)) as Hr.
  rewrite (tagged_value (_value x) s Hs).
  destruct (Z.ltb_spec (Z.land (_value x) 0xFFFFFFF0 + s) 0xFFFFFFFF)
    as [Hlt|Hge]; [|discriminate].
  intros [= <-]. cbn [_value]. split; [lia|].
  rewrite <- (tagged_value (_value x) s Hs).
  split; [apply for_state_random_part | apply for_state_low_nibble];
    exact Hs.
Qed.

(** [for_state] on any Xid, also one built from a negative or oversized
    value: it raises exactly when the random part is 0xFFFFFFF0 and the tag
    is 15; otherwise the new Xid is a 32-bit value below 0xFFFFFFFF with the
    same random part and the tag as its low nibble. *)
Theorem for_state_outcome (x : Xid) (s : Z) :
  0 <= s <= 15 ->
  (for_state x s = Raise AssertionError <->
   random_part x = 0xFFFFFFF0 /\ s = 15) /\
  (forall x', for_state x s = Ok x' ->
     0 <= _value x' < 0xFFFFFFFF /\
     random_part x' = random_part x /\
     Z.land (_value x') 0xF = s).
Proof.
  intros Hs.
  split; [|intros x'; apply for_state_fields; exact Hs].
  unfold for_state, __init__, random_part.
  pose proof (random_part_range (_value x)) as Hr.
  pose proof (random_part_value (_value x)) as Hv.
  rewrite (tagged_value (_value x) s Hs).
  destruct (Z.ltb_spec (Z.land (_value x) 0xFFFFFFF0 + s) 0xFFFFFFFF)
    as [Hlt|Hge].
  - split; [discriminate|]. intros [Htop ->]. lia.
  - split; [|reflexivity]. intros _. lia.
Qed.

Lemma for_state_outcome_witness :
  (for_state (mkXid (-1)) 15 = Raise AssertionError <->
   random_part (mkXid (-1)) = 0xFFFFFFF0 /\ 15 = 15) /\
  (forall x', for_state (mkXid (-1)) 15 = Ok x' ->
     0 <= _value x' < 0xFFFFFFFF /\
     random_part x' = random_part (mkXid (-1)) /\
     Z.land (_value x') 0xF = 15).
Proof. apply (for_state_outcome (mkXid (-1)) 15). lia. Defined.

(** Xids made from one Xid for two states match each other and the Xid they
    were made from; they are equal only if the states are. *)
Theorem for_state_matches (x x1 x2 : Xid) (s t : Z) :
  0 <= s <= 15 -> 0 <= t <= 15 ->
  for_state x s = Ok x1 -> for_state x t = Ok x2 ->
  matches x1 x2 = true /\ matches x x1 = true /\
  (__eq__ x1 (__index__ x2) = true <-> s = t).
Proof.
  intros Hs Ht H1 H2.
  destruct (for_state_fields x x1 s Hs H1) as (_ & Hr1 & Hn1).
  destruct (for_state_fields x x2 t Ht H2) as (_ & Hr2 & Hn2).
  unfold matches, __eq__, __index__. rewrite Hr1, Hr2, !Z.eqb_refl.
  split; [reflexivity|]. split; [reflexivity|].
  rewrite Z.eqb_eq. split.
  - intros Heq. rewrite <- Hn1, <- Hn2, Heq. reflexivity.
  - intros ->. unfold for_state in H1, H2. rewrite H1 in H2.
    injection H2 as ->. reflexivity.
Qed.

Lemma for_state_matches_witness :
  matches (mkXid 0x1234567F) (mkXid 0x12345674) = true /\
  matches (mkXid 0x12345670) (mkXid 0x1234567F) = true /\
  (__eq__ (mkXid 0x1234567F) (__index__ (mkXid 0x12345674)) = true <->
   15 = 4).
Proof.
  apply (for_state_matches (mkXid 0x12345670) (mkXid 0x1234567F)
           (mkXid 0x12345674) 15 4); [lia | lia | reflexivity | reflexivity].
Defined.

(** [request_state] never raises, whatever the value and whatever the
    enumeration: it gives the low nibble when that is the value of a [State]
    member, a number of 0..15, and no state otherwise. *)
Theorem request_state_total (State_values : list Z) (x : Xid) :
  exists o,
    request_state State_values x = Ok o /\
    (forall s, o = Some s <->
               s = Z.land (_value x) 0xF /\ s ∈ State_values) /\
    (forall s, o = Some s -> 0 <= s <= 15).
Proof.
  unfold request_state, State.
  pose proof (low_nibble_range (_value x)) as Hrange.
  destruct (bool_decide (Z.land (_value x) 0xF ∈ State_values)) eqn:Hmem.
  - apply bool_decide_eq_true in Hmem. eexists. split; [reflexivity|]. split.
    + intros s. split; [intros [= <-]; auto | intros [-> _]; reflexivity].
    + intros s [= <-]. exact Hrange.
  - apply bool_decide_eq_false in Hmem. exists None.
    split; [reflexivity|]. split.
    + intros s. split; [discriminate | intros [-> Hin]; contradiction].
    + discriminate.
Qed.

(** An Xid constructed without a value lies in [0x10, 0xFFFFFFF0], so its
    random part is never zero, and constructing an Xid from its integer value
    gives it back. *)
Theorem unseeded_xid_range (entropy entropy' : Z) :
  exists x,
    __init__ None entropy = Ok x /\
    0x10 <= _value x <= 0xFFFFFFF0 /\
    0x10 <= random_part x <= 0xFFFFFFF0 /\
    __init__ (Some (__index__ x)) entropy' = Ok x.
Proof.
  exists (mkXid (random_xid_prefix entropy)). split; [reflexivity|].
  pose proof (randint_range 0x10 0xFFFFFFF0 entropy ltac:(lia)) as Hr.
  fold (random_xid_prefix entropy) in Hr.
  unfold random_part, __index__, __init__. cbn [_value].
  split; [exact Hr|]. split.
  - rewrite random_part_value.
    rewrite Z.mod_small by lia.
    pose proof (Z.div_mod (random_xid_prefix entropy) 16).
    pose proof (Z.mod_pos_bound (random_xid_prefix entropy) 16).
    assert (1 <= random_xid_prefix entropy / 16)
      by (apply Z.div_le_lower_bound; lia).
    lia.
  - destruct (Z.ltb_spec (random_xid_prefix entropy) 0xFFFFFFFF); [|lia].
    reflexivity.
Qed.

End XidMore.

(** ** The packet filter: what it reads and what it ignores *)

Section FilterMore.
Import Engine DHCP4Socket Examples.

Lemma load_byte_insert (d : list Z) (i : nat) (b off : Z) :
  0 <= off -> Z.to_nat off <> i ->
  load_byte (<[i:=b]> d) off = load_byte d off.
Proof.
  intros Hoff Hne. unfold load_byte.
  destruct (Z.leb_spec 0 off); [|lia].
  apply list_lookup_insert_ne. congruence.
Qed.

Lemma load_half_insert (d : list Z) (i : nat) (b off : Z) :
  0 <= off -> Z.to_nat off <> i -> Z.to_nat (off + 1) <> i ->
  load_half (<[i:=b]> d) off = load_half d off.
Proof.
  intros Hoff Hne Hne1. unfold load_half.
  rewrite !load_byte_insert by (assumption || lia). reflexivity.
Qed.

Lemma load_byte_Some_length (d : list Z) (off v : Z) :
  load_byte d off = Some v -> 0 <= off < Z.of_nat (length d).
Proof.
  unfold load_byte. destruct (Z.leb_spec 0 off); [|discriminate].
  intros Hv. apply lookup_lt_Some in Hv. lia.
Qed.

(** What an accepting run has seen. *)
Lemma filter_spec_accept (port : Z) (pkt : skb) :
  verdict (filter_spec port pkt).2 = Some accept_len ->
  vlan_tag_present pkt = false /\
  load_half (data pkt) 12 = Some ETHERTYPE_IP /\
  load_byte (data pkt) 23 = Some IPPROTO_UDP /\
  exists verlen,
    load_byte (data pkt) 14 = Some verlen /\
    load_half (data pkt) (4 * Z.land verlen 0xf + 16) = Some port.
Proof.
  unfold filter_spec.
  destruct (vlan_tag_present pkt); [discriminate|].
  destruct (load_half (data pkt) 12) as [ethertype|] eqn:H12;
    [|discriminate].
  destruct (Z.eqb_spec ethertype ETHERTYPE_IP) as [->|]; [|discriminate].
  destruct (load_byte (data pkt) 23) as [proto|] eqn:H23; [|discriminate].
  destruct (Z.eqb_spec proto IPPROTO_UDP) as [->|]; [|discriminate].
  destruct (load_half (data pkt) 20) as [frag|]; [|discriminate].
  destruct (Z.land frag 8191 =? 0); [|discriminate].
  destruct (load_byte (data pkt) 14) as [verlen|] eqn:H14; [|discriminate].
  destruct (load_half (data pkt) (4 * Z.land verlen 15 + 16)) as [dport|]
    eqn:Hdport; [|discriminate].
  destruct (Z.eqb_spec dport port) as [->|]; [|discriminate].
  intros _. repeat split. exists verlen. split; [reflexivity | exact Hdport].
Qed.

(** Filters for two ports never accept the same frame: a socket is not
    handed the traffic of another port. *)
Theorem listen_udp_port_disjoint (p q : Z) (pkt : skb) :
  0 <= p < 2 ^ 32 -> 0 <= q < 2 ^ 32 -> p <> q ->
  verdict (run (listen_udp_port p) pkt).2 = Some accept_len ->
  verdict (run (listen_udp_port q) pkt).2 = Some drop_len.
Proof.
  intros Hp Hq Hne. rewrite !run_filter_spec, !u32_small by assumption.
  intros Hacc.
  destruct (filter_spec_accept p pkt Hacc)
    as (Hv & H12 & H23 & verlen & H14 & Hdp).
  revert Hacc. unfold filter_spec.
  rewrite Hv, H12, H23, H14, Hdp, !Z.eqb_refl. cbn [negb].
  destruct (load_half (data pkt) 20) as [frag|]; [|discriminate].
  destruct (Z.land frag 8191 =? 0); [|discriminate]. cbn [negb].
  destruct (Z.eqb_spec p q) as [Heq|_]; [contradiction | reflexivity].
Qed.

Lemma listen_udp_port_disjoint_witness :
  verdict (run (listen_udp_port 67) (mkSkb false (udp_frame 68 0))).2 =
    Some drop_len.
Proof.
  apply (listen_udp_port_disjoint 68 67 (mkSkb false (udp_frame 68 0)));
    [lia | lia | lia | reflexivity].
Defined.

(** The run of the filter, instruction by instruction, is the same on two
    frames that differ in one byte the filter does not read: addresses,
    checksums, the source port and the payload do not matter. *)
Theorem listen_udp_port_unread_byte (port : Z) (vlan : bool) (d : list Z)
  (i : nat) (b : Z) :
  i ∉ read_offsets d ->
  run (listen_udp_port port) (mkSkb vlan (<[i:=b]> d)) =
  run (listen_udp_port port) (mkSkb vlan d).
Proof.
  intros Hi. rewrite !run_filter_spec. unfold filter_spec. cbn [data].
  unfold read_offsets in Hi. rewrite elem_of_app in Hi.
  assert (Hfixed : forall k : nat, k ∈ [12; 13; 14; 20; 21; 23]%nat -> k <> i).
  { intros k Hk ->. apply Hi. left. exact Hk. }
  assert (H12 : load_half (<[i:=b]> d) 12 = load_half d 12).
  { apply load_half_insert; [lia | apply (Hfixed 12%nat) |
                             apply (Hfixed 13%nat)];
      repeat constructor. }
  assert (H23 : load_byte (<[i:=b]> d) 23 = load_byte d 23).
  { apply load_byte_insert; [lia | apply (Hfixed 23%nat)];
      repeat constructor. }
  assert (H20 : load_half (<[i:=b]> d) 20 = load_half d 20).
  { apply load_half_insert; [lia | apply (Hfixed 20%nat) |
                             apply (Hfixed 21%nat)];
      repeat constructor. }
  assert (H14 : load_byte (<[i:=b]> d) 14 = load_byte d 14).
  { apply load_byte_insert; [lia | apply (Hfixed 14%nat)];
      repeat constructor. }
  rewrite H12, H23, H20, H14.
  destruct (load_byte d 14) as [verlen|] eqn:Hverlen; [|reflexivity].
  pose proof (low_nibble_range verlen) as Hn.
  rewrite load_half_insert; [reflexivity | lia | |].
  - intros <-. apply Hi. right. repeat constructor.
  - intros <-. apply Hi. right.
    replace (4 * Z.land verlen 15 + 16 + 1)
      with (4 * Z.land verlen 15 + 17) by lia.
    repeat constructor.
Qed.

Lemma listen_udp_port_unread_byte_witness :
  run (listen_udp_port 68) (mkSkb false (<[35%nat:=99]> (udp_frame 68 0))) =
  run (listen_udp_port 68) (mkSkb false (udp_frame 68 0)).
Proof.
  apply (listen_udp_port_unread_byte 68 false (udp_frame 68 0) 35 99).
  vm_compute. intros Hin.
  repeat (apply elem_of_cons in Hin as [Hin|Hin]; [discriminate Hin|]).
  apply elem_of_nil in Hin. exact Hin.
Defined.

(** The filter looks at the low nibble of byte 14 only: it checks neither
    the IP version in the high nibble nor that the header length is at least
    20 bytes. *)
Theorem listen_udp_port_ignores_version (port : Z) (vlan : bool) (d : list Z)
  (verlen b : Z) :
  load_byte d 14 = Some verlen ->
  Z.land b 0xf = Z.land verlen 0xf ->
  run (listen_udp_port port) (mkSkb vlan (<[14%nat:=b]> d)) =
  run (listen_udp_port port) (mkSkb vlan d).
Proof.
  intros H14 Hlow. rewrite !run_filter_spec. unfold filter_spec. cbn [data].
  pose proof (load_byte_Some_length d 14 verlen H14) as Hlen.
  assert (H14' : load_byte (<[14%nat:=b]> d) 14 = Some b).
  { unfold load_byte. cbn. apply list_lookup_insert_eq. lia. }
  pose proof (low_nibble_range verlen) as Hn.
  rewrite !load_half_insert, load_byte_insert by lia.
  rewrite H14, H14', Hlow.
  rewrite load_half_insert by lia. reflexivity.
Qed.

Lemma listen_udp_port_ignores_version_witness :
  run (listen_udp_port 68) (mkSkb false (<[14%nat:=0x65]> (udp_frame 68 0))) =
  run (listen_udp_port 68) (mkSkb false (udp_frame 68 0)).
Proof.
  apply (listen_udp_port_ignores_version 68 false (udp_frame 68 0) 0x45 0x65);
    reflexivity.
Defined.

(** A frame of fewer than 24 bytes is dropped, for every port: the filter
    has no length check of its own, the failed load drops the frame. *)
Theorem listen_udp_port_drops_truncated (port : Z) (pkt : skb) :
  (length (data pkt) < 24)%nat ->
  verdict (run (listen_udp_port port) pkt).2 = Some drop_len.
Proof.
  intros Hlen. rewrite run_filter_spec. unfold filter_spec.
  assert (H23 : load_byte (data pkt) 23 = None).
  { unfold load_byte. cbn. apply lookup_ge_None. lia. }
  rewrite H23.
  destruct (vlan_tag_present pkt); [reflexivity|].
  destruct (load_half (data pkt) 12) as [ethertype|]; [|reflexivity].
  destruct (negb (ethertype =? ETHERTYPE_IP)); reflexivity.
Qed.

Lemma listen_udp_port_drops_truncated_witness :
  verdict (run (listen_udp_port 68)
             (mkSkb false (replicate 12 0 ++ [0x08; 0x00]))).2 =
    Some drop_len.
Proof.
  apply (listen_udp_port_drops_truncated 68
           (mkSkb false (replicate 12 0 ++ [0x08; 0x00]))).
  cbn. lia.
Defined.

End FilterMore.

(** ** Lease timers: cancelling, bad names, the passage of time *)

Section TimersMore.
Import Timers.

Lemma cancel_loop (w : World) :
  loop (cancel w).1 =
    mkLoop (now (loop w))
      (cancel_at (expiration (self w))
         (cancel_at (rebinding (self w))
            (cancel_at (renewal (self w)) (scheduled (loop w)))))
      (tasks (loop w)).
Proof.
  rewrite cancel_resets.
  destruct w as [[[r|] [b|] [e|]] [n s t] lg]; reflexivity.
Qed.

Lemma lookup_cancel_at (held : option nat) (l : list TimerHandle) (j : nat) :
  cancel_at held l !! j =
    (if bool_decide (held = Some j) then cancel_handle else id) <$> (l !! j).
Proof.
  destruct held as [i|]; cbn.
  - case_bool_decide as Hij.
    + injection Hij as ->. apply list_lookup_alter_eq.
    + rewrite list_lookup_alter_ne by congruence.
      destruct (l !! j); reflexivity.
  - destruct (l !! j); reflexivity.
Qed.

Lemma lookup_cancel_held (w : World) (i : nat) :
  (exists a, slot a (self w) = Some i) ->
  scheduled (loop (cancel w).1) !! i =
    cancel_handle <$> (scheduled (loop w) !! i).
Proof.
  intros [a Ha]. rewrite cancel_loop. cbn [scheduled].
  rewrite !lookup_cancel_at.
  destruct (scheduled (loop w) !! i) as [h|]; [|reflexivity]. cbn.
  destruct a; cbn in Ha; rewrite Ha; repeat case_bool_decide;
    try congruence; destruct h; reflexivity.
Qed.

Lemma lookup_cancel_free (w : World) (i : nat) :
  (forall a, slot a (self w) <> Some i) ->
  scheduled (loop (cancel w).1) !! i = scheduled (loop w) !! i.
Proof.
  intros Hfree. rewrite cancel_loop. cbn [scheduled].
  rewrite !lookup_cancel_at.
  pose proof (Hfree Renewal) as Hr. pose proof (Hfree Rebinding) as Hb.
  pose proof (Hfree Expiration) as He. cbn in Hr, Hb, He.
  rewrite !bool_decide_eq_false_2 by assumption.
  destruct (scheduled (loop w) !! i); reflexivity.
Qed.

Lemma for_each_app {A : Type} (xs ys : list A) (body : A -> M unit)
  (w : World) :
  for_each (xs ++ ys) body w =
    match for_each xs body w with
    | (w', Ok _) => for_each ys body w'
    | (w', Raise e) => (w', Raise e)
    end.
Proof.
  revert w. induction xs as [|x xs IH]; intros w; [reflexivity|].
  cbn [app for_each]. unfold mbind, M_bind.
  destruct (body x w) as [w' [[]|e]]; [apply IH | reflexivity].
Qed.

Lemma arm_loop_ok (lease : Lease) (callbacks : list (string * nat))
  (w : World) :
  Forall (fun item => is_Some (attr_of_name item.1)) callbacks ->
  (for_each callbacks (arm_one lease) w).2 = Ok tt.
Proof.
  intros Hvalid. revert w.
  induction Hvalid as [|[name cb] rest [a Ha] _ IH]; intros w;
    [reflexivity|].
  cbn [for_each]. unfold mbind, M_bind.
  rewrite (arm_one_slot lease name cb a w Ha). apply IH.
Qed.

(** [cancel] never raises and empties the three slots, whatever they held;
    a second [cancel] then does nothing at all: it cancels no handle and
    logs nothing. *)
Theorem cancel_idempotent (w : World) :
  (cancel w).2 = Ok tt /\
  self (cancel w).1 = mkTimers None None None /\
  cancel (cancel w).1 = ((cancel w).1, Ok tt).
Proof.
  rewrite !cancel_resets.
  destruct w as [[[r|] [b|] [e|]] [n s t] lg]; repeat split; reflexivity.
Qed.

(** [cancel] touches the handles its slots hold and nothing else: a handle
    held in a slot ends up cancelled, every other handle of the loop is as
    it was, nothing is scheduled or run, and the clock and the tasks already
    started are unchanged. *)
Theorem cancel_only_held (w : World) :
  now (loop (cancel w).1) = now (loop w) /\
  tasks (loop (cancel w).1) = tasks (loop w) /\
  length (scheduled (loop (cancel w).1)) = length (scheduled (loop w)) /\
  (forall i h, scheduled (loop w) !! i = Some h ->
     (exists a, slot a (self w) = Some i) ->
     scheduled (loop (cancel w).1) !! i = Some (cancel_handle h)) /\
  (forall i, (forall a, slot a (self w) <> Some i) ->
     scheduled (loop (cancel w).1) !! i = scheduled (loop w) !! i).
Proof.
  split; [rewrite cancel_loop; reflexivity|].
  split; [rewrite cancel_loop; reflexivity|].
  split; [apply cancel_length|].
  split.
  - intros i h Hi Hheld. rewrite (lookup_cancel_held w i Hheld), Hi.
    reflexivity.
  - intros i Hfree. apply lookup_cancel_free. exact Hfree.
Qed.

Lemma held_distinct (w : World) (a b : attr) (i : nat) :
  held_are_own w -> slot a (self w) = Some i -> slot b (self w) = Some i ->
  a = b.
Proof.
  intros Hown Ha Hb.
  destruct (Hown a i Ha) as (h & Hh & Hoa).
  destruct (Hown b i Hb) as (h' & Hh' & Hob).
  congruence.
Qed.

Lemma canceling_reset (a b : attr) (w : World) :
  held_are_own w -> a <> b -> canceling (reset a w) b = canceling w b.
Proof.
  intros Hown Hne. unfold canceling.
  rewrite (reset_slot_other a b w) by congruence.
  destruct (slot b (self w)) as [j|] eqn:Hb; [|reflexivity].
  unfold reset. destruct (slot a (self w)) as [i|] eqn:Ha; [|reflexivity].
  cbn [loop scheduled].
  rewrite list_lookup_alter_ne; [reflexivity|].
  intros ->. apply Hne. exact (held_distinct w a b j Hown Ha Hb).
Qed.

Lemma reset_canceling (a : attr) (w : World) :
  log (reset a w) = log w ++ option_list (canceling w a).
Proof.
  unfold reset, canceling.
  destruct (slot a (self w)) as [i|]; cbn; [|symmetry; apply app_nil_r].
  destruct (from_option cancelled true (scheduled (loop w) !! i)); cbn;
    [symmetry; apply app_nil_r | reflexivity].
Qed.

(** What [cancel] logs on a [Timers] object that has only been used through
    its methods: one "Canceling" record for each slot whose handle does not
    report [cancelled()], in the order renewal, rebinding, expiration, and
    nothing else.  Only [cancelled()] is consulted, not whether the handle
    has already run, so a timer that has fired and done its work is still
    logged as being cancelled. *)
Theorem cancel_log_exact (w : World) :
  reachable w ->
  log (cancel w).1 =
    log w ++ omap (canceling w) [Renewal; Rebinding; Expiration] /\
  forall a i h,
    slot a (self w) = Some i -> scheduled (loop w) !! i = Some h ->
    cancelled h = false ->
    Canceling (name_of a) ∈ drop (length (log w)) (log (cancel w).1).
Proof.
  intros Hreach. pose proof (reachable_inv w Hreach) as Hinv.
  assert (Hlog : log (cancel w).1 =
                 log w ++ omap (canceling w) [Renewal; Rebinding; Expiration]).
  { rewrite cancel_resets. cbn [fst]. rewrite !reset_canceling.
    pose proof (reset_inv Renewal w Hinv) as Hinv1.
    rewrite (canceling_reset Rebinding Expiration (reset Renewal w))
      by (apply Hinv1 || discriminate).
    rewrite (canceling_reset Renewal Expiration w)
      by (apply Hinv || discriminate).
    rewrite (canceling_reset Renewal Rebinding w)
      by (apply Hinv || discriminate).
    rewrite <- !app_assoc. f_equal. cbn [omap list_omap].
    destruct (canceling w Renewal), (canceling w Rebinding),
      (canceling w Expiration); reflexivity. }
  split; [exact Hlog|].
  intros a i h Ha Hi Hc. rewrite Hlog, drop_app_length.
  apply list_elem_of_omap. exists a. split.
  - destruct a; repeat constructor.
  - unfold canceling. rewrite Ha, Hi. cbn. rewrite Hc. reflexivity.
Qed.

Lemma cancel_log_exact_witness :
  log (cancel Examples.a_minute_later).1 =
    log Examples.a_minute_later
      ++ omap (canceling Examples.a_minute_later)
           [Renewal; Rebinding; Expiration] /\
  forall a i h,
    slot a (self Examples.a_minute_later) = Some i ->
    scheduled (loop Examples.a_minute_later) !! i = Some h ->
    cancelled h = false ->
    Canceling (name_of a)
      ∈ drop (length (log Examples.a_minute_later))
          (log (cancel Examples.a_minute_later).1).
Proof.
  apply (cancel_log_exact Examples.a_minute_later).
  exists Examples.empty_loop. split; [constructor|].
  eapply steps_step;
    [eapply steps_step; [apply steps_refl|];
     apply (step_arm Examples.lease1 Examples.callbacks3)|].
  apply (step_advance 60 Examples.armed_once).
Defined.

(** A keyword argument whose name is not one of the three timers makes [arm]
    raise [AttributeError] when its turn comes: the timers armed before the
    call are cancelled, the names before the bad one are armed as if the call
    had stopped there, and the names after it are never looked at. *)
Theorem arm_unknown_name (lease : Lease) (before after : list (string * nat))
  (bad : string) (cb : nat) (w : World) :
  Forall (fun item => is_Some (attr_of_name item.1)) before ->
  attr_of_name bad = None ->
  arm lease (before ++ (bad, cb) :: after) w =
    ((arm lease before w).1, Raise AttributeError).
Proof.
  intros Hvalid Hbad. rewrite !arm_after_cancel, for_each_app.
  pose proof (arm_loop_ok lease before (cancel w).1 Hvalid) as Hok.
  destruct (for_each before (arm_one lease) (cancel w).1) as [w' r].
  cbn in Hok. subst r. cbn [for_each fst]. unfold mbind, M_bind.
  rewrite (arm_one_unknown lease bad cb w' Hbad). reflexivity.
Qed.

Lemma arm_unknown_name_witness :
  arm Examples.lease1 Examples.callbacks_typo (initial Examples.empty_loop) =
    ((arm Examples.lease1 [("renewal", 1%nat)]%string
        (initial Examples.empty_loop)).1,
     Raise AttributeError).
Proof.
  apply (arm_unknown_name Examples.lease1 [("renewal", 1%nat)]%string
           [("expiration", 3%nat)]%string "rebind" 2
           (initial Examples.empty_loop)).
  - constructor; [eexists; reflexivity | constructor].
  - reflexivity.
Defined.

(** [arm] and [cancel] only ever cancel handles that [arm] scheduled: a
    handle some other user of the loop scheduled is left exactly as it
    was. *)
Theorem timers_spare_other_handles (w : World) (lease : Lease)
  (callbacks : list (string * nat)) (i : nat) (h : TimerHandle) :
  reachable w ->
  scheduled (loop w) !! i = Some h -> origin h = None ->
  scheduled (loop (cancel w).1) !! i = Some h /\
  scheduled (loop (arm lease callbacks w).1) !! i = Some h.
Proof.
  intros Hreach Hi Hother. pose proof (reachable_inv w Hreach) as Hinv.
  assert (Hfree : forall w', timers_inv w' ->
                    scheduled (loop w') !! i = Some h ->
                    forall a, slot a (self w') <> Some i).
  { intros w' [Hown _] Hi' a Ha.
    destruct (Hown a i Ha) as (h' & Hh' & Ho). congruence. }
  assert (Hcancel : scheduled (loop (cancel w).1) !! i = Some h).
  { rewrite lookup_cancel_free by (apply Hfree; assumption). exact Hi. }
  split; [exact Hcancel|].
  rewrite arm_after_cancel.
  apply (for_each_preserves
           (fun w' => timers_inv w' /\ scheduled (loop w') !! i = Some h)
           (arm_one lease) callbacks);
    [|split; [apply cancel_inv; exact Hinv | exact Hcancel]].
  intros [name cb] w' [Hinv' Hi']. split; [apply arm_one_inv; exact Hinv'|].
  destruct (attr_of_name name) as [a|] eqn:Hname.
  - rewrite (arm_one_slot lease name cb a w' Hname). cbn [fst].
    apply arm_attr_kept; [apply Hfree; assumption | exact Hi'].
  - rewrite (arm_one_unknown lease name cb w' Hname). exact Hi'.
Qed.

Lemma timers_spare_other_handles_witness :
  let w := (call_later 5 7 None Examples.armed_once).1 in
  let h := mkHandle (0 + 5)%Q 7 false false None in
  scheduled (loop (cancel w).1) !! 2%nat = Some h /\
  scheduled (loop (arm Examples.lease1 Examples.callbacks3 w).1) !! 2%nat =
    Some h.
Proof.
  apply (timers_spare_other_handles
           (call_later 5 7 None Examples.armed_once).1 Examples.lease1
           Examples.callbacks3 2 (mkHandle (0 + 5)%Q 7 false false None)).
  - exists Examples.empty_loop. split; [constructor|].
    eapply steps_step;
      [eapply steps_step; [apply steps_refl|];
       apply (step_arm Examples.lease1 Examples.callbacks3)|].
    apply (step_other_call_later 5 7 Examples.armed_once).
  - reflexivity.
  - reflexivity.
Defined.

(** From [arm] to the callback: a timer that [arm] has set runs once the
    lease's time for it has passed, which starts the callback given under
    its name, and it has not run before that. *)
Theorem armed_timer_runs (w : World) (lease : Lease)
  (callbacks : list (string * nat)) (dt : Q) (a : attr) (i : nat) :
  Forall (fun item => is_Some (attr_of_name item.1)) callbacks ->
  let w2 := (arm lease callbacks w).1 in
  let l3 := advance dt (loop w2) in
  slot a (self w2) = Some i ->
  exists h t name cb,
    scheduled (loop w2) !! i = Some h /\
    lease_in a lease = Some t /\
    (name, cb) ∈ callbacks /\ attr_of_name name = Some a /\
    callback h = cb /\
    ((t <= dt)%Q ->
     scheduled l3 !! i = Some (fire_handle h) /\
     cb ∈ drop (length (tasks (loop w2))) (tasks l3)) /\
    ((dt < t)%Q -> scheduled l3 !! i = Some h /\ fired h = false).
Proof.
  intros Hnames w2 l3 Hslot.
  destruct (armed_ok_loop (length (scheduled (loop w))) (now (loop w)) (log w)
              lease callbacks Hnames [] (cancel w).1 (armed_ok_cancel lease w))
    as [_ Hok].
  rewrite <- arm_after_cancel in Hok. fold w2 in Hok.
  rewrite app_nil_l in Hok. destruct Hok as (Hnow & _ & _ & Hslots).
  specialize (Hslots a). rewrite Hslot in Hslots.
  destruct Hslots as (_ & h & t & name & cb & Hh & Hlive & _ & Ht & Hwhen
                      & Hin & Hname & Hcb).
  apply armed_time_Some in Ht as [Ht _].
  exists h, t, name, cb. do 5 (split; [assumption|]).
  assert (Hdue : due (now (loop w2) + dt) h = Qle_bool t dt).
  { unfold due. rewrite Hlive, Hnow. cbn [andb].
    destruct (Qle_bool t dt) eqn:Hle.
    - apply Qle_bool_iff. apply Qle_bool_iff in Hle.
      rewrite Hwhen. apply Qplus_le_r. exact Hle.
    - destruct (Qle_bool (when h) (now (loop w) + dt)) eqn:Hle';
        [|reflexivity].
      apply Qle_bool_iff in Hle'. rewrite Hwhen in Hle'.
      apply Qplus_le_r, Qle_bool_iff in Hle'. congruence. }
  unfold l3, advance. cbn [scheduled tasks]. rewrite list_lookup_fmap, Hh.
  cbn [fmap option_fmap option_map]. rewrite Hdue. split.
  - intros Hle. apply Qle_bool_iff in Hle. rewrite Hle.
    split; [reflexivity|]. rewrite drop_app_length, <- Hcb.
    apply list_elem_of_fmap_2, list_elem_of_filter. split.
    + rewrite Hdue. exact Hle.
    + apply (list_elem_of_lookup_2 _ i). exact Hh.
  - intros Hlt. apply Qlt_not_le in Hlt.
    destruct (Qle_bool t dt) eqn:Hle;
      [apply Qle_bool_iff in Hle; contradiction|].
    split; [reflexivity|].
    unfold live in Hlive. destruct (fired h); [|reflexivity].
    rewrite andb_false_r in Hlive. discriminate Hlive.
Qed.

Lemma armed_timer_runs_witness :
  let w2 := (arm Examples.lease1 Examples.callbacks3
               (initial Examples.empty_loop)).1 in
  let l3 := advance 60 (loop w2) in
  exists h t name cb,
    scheduled (loop w2) !! 0%nat = Some h /\
    lease_in Renewal Examples.lease1 = Some t /\
    (name, cb) ∈ Examples.callbacks3 /\ attr_of_name name = Some Renewal /\
    callback h = cb /\
    ((t <= 60)%Q ->
     scheduled l3 !! 0%nat = Some (fire_handle h) /\
     cb ∈ drop (length (tasks (loop w2))) (tasks l3)) /\
    ((60 < t)%Q -> scheduled l3 !! 0%nat = Some h /\ fired h = false).
Proof.
  apply (armed_timer_runs (initial Examples.empty_loop) Examples.lease1
           Examples.callbacks3 60 Renewal 0).
  - repeat constructor; eexists; reflexivity.
  - reflexivity.
Defined.

End TimersMore.

(** ** The socket: sending, filtering, receiving *)

Section SocketMore.
Import Engine DHCP4Socket.
Context `{Codec : DHCP4Msg}.

Ltac pack_next :=
  first
    [ rewrite pack_addr_ok by assumption
    | rewrite pack_u16_ok by (first [assumption | lia | apply csum_range])
    | rewrite pack_u8_ok by (unfold IPPROTO_UDP; lia)
    | progress cbn [mbind result_bind] ].

(** [put], once the port check has passed. *)
Lemma put_filled (self : AsyncDHCP4Socket) (msg : SentDHCPMessage) :
  sport msg = port self ->
  put self msg =
    match assemble self (filled self msg) with
    | Ok frame =>
        mkPut (Ok (filled self msg)) (filled self msg) (add_sent frame self)
    | Raise e => mkPut (Raise e) (filled self msg) self
    end.
Proof.
  intros Hport. unfold put, filled. rewrite Hport, Z.eqb_refl. reflexivity.
Qed.

Lemma assemble_layout (self : AsyncDHCP4Socket) (msg : SentDHCPMessage)
  (src buf : list Z) :
  eth_src msg = Some src ->
  is_addr 6 src -> is_addr 6 (eth_dst msg) ->
  is_addr 4 (ip_src msg) -> is_addr 4 (ip_dst msg) ->
  0 <= port self < 65536 -> 0 <= dport msg < 65536 ->
  dhcp4msg_encode (dhcp msg) = Ok buf ->
  IPV4_HEADER_SIZE + UDP_HEADER_SIZE + Z.of_nat (length buf) < 65536 ->
  exists ipcsum udpcsum,
    assemble self msg =
      Ok (frame_layout (eth_dst msg) src (ip_src msg) (ip_dst msg)
            (20 + 8 + Z.of_nat (length buf)) ipcsum (port self) (dport msg)
            (8 + Z.of_nat (length buf)) udpcsum buf).
Proof.
  intros Hsrc [Hsrc6 Hsrcb] [Hdst6 Hdstb] [Hips4 Hipsb]
    [Hipd4 Hipdb] Hsp Hdp Henc Hlen.
  destruct msg as [d esrc edst ipsrc ipdst sp dp]. cbn in *. subst esrc.
  unfold assemble, udp4_pseudo_header_encode, udpmsg_encode, ip4msg_encode,
    ethmsg_encode.
  unfold IPV4_HEADER_SIZE, UDP_HEADER_SIZE in *.
  cbn [dhcp eth_src eth_dst ip_src ip_dst dport default from_option id
       udp_sport udp_dport udp_len udp_csum ph_src ph_dst ph_len
       ip_verlen ip_dsf ip_len ip_id ip_flags ip_ttl ip_proto ip_csum
       ip_src_f ip_dst_f eth_dst_f eth_src_f eth_type_f].
  rewrite Henc. unfold ETHERTYPE_IP.
  repeat pack_next.
  do 2 eexists. unfold frame_layout, IPPROTO_UDP.
  rewrite <- !app_assoc. cbn [app].
  change (2048 / 256) with 8. change (2048 mod 256) with 0.
  change (0 / 256) with 0. change (0 mod 256) with 0.
  reflexivity.
Qed.

Lemma filled_set (self : AsyncDHCP4Socket) (msg : SentDHCPMessage)
  (src : list Z) :
  eth_src msg = Some src -> is_addr 6 src ->
  filled self msg = set_dhcp (payload_sent src (dhcp msg)) msg.
Proof.
  intros Hsrc [Hsrc6 _]. unfold filled, payload_sent. rewrite Hsrc.
  destruct src; [discriminate Hsrc6|]. cbn.
  rewrite Hsrc. destruct (chaddr (dhcp msg)); [|reflexivity].
  destruct msg; reflexivity.
Qed.

Lemma put_layout (self : AsyncDHCP4Socket) (msg : SentDHCPMessage)
  (src buf : list Z) :
  sport msg = port self ->
  eth_src msg = Some src ->
  is_addr 6 src -> is_addr 6 (eth_dst msg) ->
  is_addr 4 (ip_src msg) -> is_addr 4 (ip_dst msg) ->
  0 <= sport msg < 65536 -> 0 <= dport msg < 65536 ->
  dhcp4msg_encode (payload_sent src (dhcp msg)) = Ok buf ->
  IPV4_HEADER_SIZE + UDP_HEADER_SIZE + Z.of_nat (length buf) < 65536 ->
  exists ipcsum udpcsum,
    assemble self (filled self msg) =
      Ok (frame_layout (eth_dst msg) src (ip_src msg) (ip_dst msg)
            (20 + 8 + Z.of_nat (length buf)) ipcsum (port self) (dport msg)
            (8 + Z.of_nat (length buf)) udpcsum buf).
Proof.
  intros Hsport Hsrc Hsrca Hdsta Hipsa Hipda Hsp Hdp Henc Hlen.
  rewrite (filled_set self msg src Hsrc Hsrca).
  apply (assemble_layout self (set_dhcp (payload_sent src (dhcp msg)) msg)
           src buf); try assumption.
  rewrite <- Hsport. assumption.
Qed.

Lemma layout_fields (edst esrc ipsrc ipdst : list Z)
  (iplen ipcsum sp dp udplen udpcsum : Z) (payload : list Z) :
  length edst = 6%nat -> length esrc = 6%nat ->
  length ipsrc = 4%nat -> length ipdst = 4%nat ->
  let f := frame_layout edst esrc ipsrc ipdst iplen ipcsum sp dp udplen
             udpcsum payload in
  load_half f 12 = Some ETHERTYPE_IP /\
  load_byte f 14 = Some 0x45 /\
  load_half f 20 = Some 0 /\
  load_byte f 23 = Some IPPROTO_UDP /\
  load_half f 36 = Some dp /\
  length f = (42 + length payload)%nat /\
  ip4msg_decode f 14 =
    Ok (mkIp4 0x45 0 iplen 0 0 128 IPPROTO_UDP ipcsum ipsrc ipdst, 34%nat) /\
  udpmsg_decode f 34 = Ok (mkUdp sp dp udplen udpcsum, 42%nat).
Proof.
  intros Hdst Hsrc Hips Hipd.
  destruct edst as [|e0 [|e1 [|e2 [|e3 [|e4 [|e5 [|]]]]]]];
    try discriminate Hdst.
  destruct esrc as [|s0 [|s1 [|s2 [|s3 [|s4 [|s5 [|]]]]]]];
    try discriminate Hsrc.
  destruct ipsrc as [|a0 [|a1 [|a2 [|a3 [|]]]]]; try discriminate Hips.
  destruct ipdst as [|b0 [|b1 [|b2 [|b3 [|]]]]]; try discriminate Hipd.
  intros f. unfold f, frame_layout.
  split; [reflexivity|]. split; [reflexivity|]. split; [reflexivity|].
  split; [reflexivity|]. split.
  { change (load_half _ 36) with (Some (dp / 256 * 256 + dp mod 256)).
    f_equal. pose proof (Z.div_mod dp 256). lia. }
  split; [reflexivity|].
  unfold ip4msg_decode, udpmsg_decode.
  cbn -[Z.div Z.modulo unpack_u16].
  change (Z.to_nat (4 * Z.land 69 15)) with 20%nat.
  cbn -[Z.div Z.modulo unpack_u16].
  rewrite !unpack_pack_u16. split; reflexivity.
Qed.

(** Which sockets a frame sent by [put] reaches: a socket is handed the
    frame if and only if the frame carries no VLAN tag and the socket's port
    is the destination port of the message. *)
Theorem put_frame_handed (self peer : AsyncDHCP4Socket)
  (msg : SentDHCPMessage) (src buf : list Z) (vlan : bool) :
  sport msg = port self ->
  eth_src msg = Some src ->
  is_addr 6 src -> is_addr 6 (eth_dst msg) ->
  is_addr 4 (ip_src msg) -> is_addr 4 (ip_dst msg) ->
  0 <= sport msg < 65536 -> 0 <= dport msg < 65536 ->
  dhcp4msg_encode (payload_sent src (dhcp msg)) = Ok buf ->
  IPV4_HEADER_SIZE + UDP_HEADER_SIZE + Z.of_nat (length buf) < 65536 ->
  0 <= port peer < 2 ^ 32 ->
  exists frame,
    sent (sock_after (put self msg)) = sent self ++ [frame] /\
    handed peer (mkSkb vlan frame) =
      if negb vlan && (port peer =? dport msg)
      then Some (take (Z.to_nat accept_len) frame) else None.
Proof.
  intros Hsport Hsrc Hsrca Hdsta Hipsa Hipda Hsp Hdp Henc Hlen Hpeer.
  pose proof (filled_set self msg src Hsrc Hsrca) as Hfilled.
  destruct (put_layout self msg src buf) as (ipcsum & udpcsum & Hasm);
    try assumption.
  rewrite (put_filled self msg Hsport), Hasm. eexists.
  split; [reflexivity|].
  destruct (layout_fields (eth_dst msg) src (ip_src msg) (ip_dst msg)
              (20 + 8 + Z.of_nat (length buf)) ipcsum (port self) (dport msg)
              (8 + Z.of_nat (length buf)) udpcsum buf)
    as (H12 & H14 & H20 & H23 & H36 & _);
    try (apply Hsrca || apply Hdsta || apply Hipsa || apply Hipda).
  unfold handed, attached_filter.
  rewrite run_filter_spec, (u32_small _ Hpeer). unfold filter_spec.
  cbn [vlan_tag_present data].
  destruct vlan; [reflexivity|].
  rewrite H12, H23, H20, H14, !Z.eqb_refl. cbn [negb andb].
  change (Z.land 0 8191 =? 0) with true. cbn [negb].
  change (4 * Z.land 69 15 + 16) with 36. rewrite H36.
  rewrite (Z.eqb_sym (dport msg)).
  destruct (port peer =? dport msg); reflexivity.
Qed.

(** The length fields of a frame sent by [put] agree with the frame: the
    IPv4 total length is the length of the frame after the 14 bytes of the
    Ethernet header, the UDP length what follows the 20 bytes of the IPv4
    header, and the DHCP payload starts at byte 42. *)
Theorem put_frame_lengths (self : AsyncDHCP4Socket) (msg : SentDHCPMessage)
  (src buf : list Z) :
  sport msg = port self ->
  eth_src msg = Some src ->
  is_addr 6 src -> is_addr 6 (eth_dst msg) ->
  is_addr 4 (ip_src msg) -> is_addr 4 (ip_dst msg) ->
  0 <= sport msg < 65536 -> 0 <= dport msg < 65536 ->
  dhcp4msg_encode (payload_sent src (dhcp msg)) = Ok buf ->
  IPV4_HEADER_SIZE + UDP_HEADER_SIZE + Z.of_nat (length buf) < 65536 ->
  exists frame ip4 udp,
    sent (sock_after (put self msg)) = sent self ++ [frame] /\
    length frame = (14 + 20 + 8 + length buf)%nat /\
    drop 42 frame = buf /\
    ip4msg_decode frame 14 = Ok (ip4, 34%nat) /\
    udpmsg_decode frame 34 = Ok (udp, 42%nat) /\
    ip_len ip4 = Z.of_nat (length frame) - 14 /\
    udp_len udp = Z.of_nat (length frame) - 14 - 20 /\
    ip_proto ip4 = IPPROTO_UDP /\
    udp_sport udp = sport msg /\ udp_dport udp = dport msg.
Proof.
  intros Hsport Hsrc Hsrca Hdsta Hipsa Hipda Hsp Hdp Henc Hlen.
  pose proof (filled_set self msg src Hsrc Hsrca) as Hfilled.
  destruct (put_layout self msg src buf) as (ipcsum & udpcsum & Hasm);
    try assumption.
  rewrite (put_filled self msg Hsport), Hasm.
  destruct (layout_fields (eth_dst msg) src (ip_src msg) (ip_dst msg)
              (20 + 8 + Z.of_nat (length buf)) ipcsum (port self) (dport msg)
              (8 + Z.of_nat (length buf)) udpcsum buf)
    as (_ & _ & _ & _ & _ & Hlength & Hip & Hudp);
    try (apply Hsrca || apply Hdsta || apply Hipsa || apply Hipda).
  do 3 eexists. split; [reflexivity|]. split; [rewrite Hlength; lia|].
  split.
  { destruct Hsrca as [Hs _], Hdsta as [Hd _], Hipsa as [Hi _],
      Hipda as [Hj _].
    unfold frame_layout. rewrite !app_assoc.
    apply drop_app_length'. rewrite !length_app, Hs, Hd, Hi, Hj.
    reflexivity. }
  split; [exact Hip|]. split; [exact Hudp|].
  cbn [ip_len udp_len ip_proto udp_sport udp_dport]. rewrite Hlength.
  repeat split; lia.
Qed.

(** Auto-filling: when the message has no source address and the payload no
    client hardware address, [put] writes the address of the socket's
    interface into both, sends the frame from that address and returns the
    message so filled; the other fields are as they were. *)
Theorem put_autofill (self : AsyncDHCP4Socket) (msg : SentDHCPMessage)
  (buf : list Z) :
  (forall d b pre, dhcp4msg_encode d = Ok b ->
                   dhcp4msg_decode (pre ++ b) (length pre) = Ok d) ->
  sport msg = port self ->
  truthy (eth_src msg) = false ->
  chaddr (dhcp msg) = None ->
  is_addr 6 (l2addr self) -> is_addr 6 (eth_dst msg) ->
  is_addr 4 (ip_src msg) -> is_addr 4 (ip_dst msg) ->
  0 <= sport msg < 65536 -> 0 <= dport msg < 65536 ->
  dhcp4msg_encode (set_chaddr (l2addr self) (dhcp msg)) = Ok buf ->
  IPV4_HEADER_SIZE + UDP_HEADER_SIZE + Z.of_nat (length buf) < 65536 ->
  exists frame r,
    returned (put self msg) = Ok (msg_after (put self msg)) /\
    msg_after (put self msg) =
      mkSent (set_chaddr (l2addr self) (dhcp msg)) (Some (l2addr self))
        (eth_dst msg) (ip_src msg) (ip_dst msg) (sport msg) (dport msg) /\
    sent (sock_after (put self msg)) = sent self ++ [frame] /\
    _decode_msg frame = Ok r /\
    r_eth_src r = l2addr self /\
    r_dhcp r = set_chaddr (l2addr self) (dhcp msg).
Proof.
  intros Hlaw Hsport Hunset Hchaddr Hl2 Hdsta Hipsa Hipda Hsp Hdp Henc Hlen.
  set (msg' := mkSent (set_chaddr (l2addr self) (dhcp msg))
                 (Some (l2addr self)) (eth_dst msg) (ip_src msg) (ip_dst msg)
                 (sport msg) (dport msg)).
  assert (Hfilled : filled self msg = msg').
  { unfold filled. rewrite Hunset. cbn. rewrite Hchaddr. reflexivity. }
  destruct (assemble_decode self msg' (l2addr self) buf)
    as (frame & Hasm & Hdec); try assumption;
    [reflexivity | rewrite <- Hsport; assumption|].
  rewrite (put_filled self msg Hsport), Hfilled, Hasm.
  exists frame. eexists. cbn [returned msg_after sock_after].
  split; [reflexivity|]. split; [reflexivity|]. split; [reflexivity|].
  split; [exact Hdec|]. split; reflexivity.
Qed.

Lemma get_skips_undecodable (bad rest : list (list Z)) (frame : list Z)
  (errors : list exn) (r : ReceivedDHCPMessage) :
  Forall (fun f => _decode_msg (take 4096 f) = Raise ValueError) bad ->
  _decode_msg (take 4096 frame) = Ok r ->
  get (bad ++ frame :: rest) errors =
    Got r rest (errors ++ replicate (length bad) ValueError).
Proof.
  intros Hbad Hframe. revert errors.
  induction Hbad as [|b bad Hb _ IH]; intros errors.
  - cbn. unfold sock_recv. rewrite Hframe, app_nil_r. reflexivity.
  - cbn [app get]. unfold sock_recv. rewrite Hb, IH. cbn.
    rewrite <- app_assoc. reflexivity.
Qed.

(** [get] returns a message exactly when some waiting frame decodes: it is
    the first such frame, cut to 4096 bytes; each frame before it raised
    [ValueError], was logged and discarded; the frames after it stay
    queued. *)
Theorem get_first_decodable (waiting rest : list (list Z))
  (errors errors' : list exn) (r : ReceivedDHCPMessage) :
  get waiting errors = Got r rest errors' <->
  exists bad frame,
    waiting = bad ++ frame :: rest /\
    Forall (fun f => _decode_msg (take 4096 f) = Raise ValueError) bad /\
    _decode_msg (take 4096 frame) = Ok r /\
    errors' = errors ++ replicate (length bad) ValueError.
Proof.
  revert errors. induction waiting as [|f waiting IH]; intros errors.
  - cbn. split; [discriminate|].
    intros (bad & frame & Hw & _). destruct bad; discriminate Hw.
  - cbn [get]. unfold sock_recv.
    destruct (_decode_msg (take 4096 f)) as [m|e] eqn:Hf.
    + split.
      * intros [= <- <- <-]. exists [], f. cbn.
        rewrite app_nil_r. repeat split; auto.
      * intros (bad & frame & Hw & Hbad & Hok & ->).
        destruct bad as [|b bad].
        -- cbn in *. injection Hw as <- <-. rewrite Hf in Hok.
           injection Hok as <-. rewrite app_nil_r. reflexivity.
        -- cbn in Hw. injection Hw as <- ->.
           apply Forall_cons_1 in Hbad as [Hb _]. congruence.
    + destruct e; try (split; [discriminate|];
        intros (bad & frame & Hw & Hbad & Hok & _);
        destruct bad as [|b bad]; cbn in Hw; injection Hw as <- ->;
        [congruence | apply Forall_cons_1 in Hbad as [Hb _]; congruence]).
      rewrite IH. split.
      * intros (bad & frame & -> & Hbad & Hok & ->).
        exists (f :: bad), frame. cbn.
        rewrite <- app_assoc. repeat split; auto.
      * intros (bad & frame & Hw & Hbad & Hok & ->).
        destruct bad as [|b bad]; cbn in Hw; injection Hw as <- ->;
          [congruence|].
        apply Forall_cons_1 in Hbad as [_ Hbad].
        exists bad, frame. cbn. rewrite <- app_assoc. repeat split; auto.
Qed.

(** [get] goes on waiting, having logged and discarded every frame, exactly
    when every waiting frame raises [ValueError]: it never returns without a
    decoded message and never gives up. *)
Theorem get_waits (waiting : list (list Z)) (errors errors' : list exn) :
  get waiting errors = Awaiting errors' <->
  Forall (fun f => _decode_msg (take 4096 f) = Raise ValueError) waiting /\
  errors' = errors ++ replicate (length waiting) ValueError.
Proof.
  revert errors. induction waiting as [|f waiting IH]; intros errors.
  - cbn. rewrite app_nil_r. split.
    + intros [= <-]. split; [constructor | reflexivity].
    + intros [_ ->]. reflexivity.
  - cbn [get]. unfold sock_recv.
    destruct (_decode_msg (take 4096 f)) as [m|e] eqn:Hf.
    + split; [discriminate|]. intros [Hall _].
      apply Forall_cons_1 in Hall as [Hb _]. congruence.
    + destruct e; try (split; [discriminate|]; intros [Hall _];
        apply Forall_cons_1 in Hall as [Hb _]; congruence).
      rewrite IH. cbn. rewrite <- app_assoc. split.
      * intros [Hall ->]. split; [constructor; assumption | reflexivity].
      * intros [Hall ->]. apply Forall_cons_1 in Hall as [_ Hall].
        split; [exact Hall | reflexivity].
Qed.

(** An exception of the decoder other than [ValueError] is not caught:
    [get] raises exactly when the first waiting frame that does not raise
    [ValueError] raises something else, and it raises that exception, with
    the frames after it still queued. *)
Theorem get_raises (waiting rest : list (list Z))
  (errors errors' : list exn) (e : exn) :
  get waiting errors = GetRaised e rest errors' <->
  exists bad frame,
    waiting = bad ++ frame :: rest /\
    Forall (fun f => _decode_msg (take 4096 f) = Raise ValueError) bad /\
    _decode_msg (take 4096 frame) = Raise e /\ e <> ValueError /\
    errors' = errors ++ replicate (length bad) ValueError.
Proof.
  revert errors. induction waiting as [|f waiting IH]; intros errors.
  - cbn. split; [discriminate|].
    intros (bad & frame & Hw & _). destruct bad; discriminate Hw.
  - cbn [get]. unfold sock_recv.
    destruct (_decode_msg (take 4096 f)) as [m|e0] eqn:Hf.
    + split; [discriminate|].
      intros (bad & frame & Hw & Hbad & Hraise & _).
      destruct bad as [|b bad]; cbn in Hw; injection Hw as <- ->;
        [congruence | apply Forall_cons_1 in Hbad as [Hb _]; congruence].
    + assert (Hother : e0 <> ValueError ->
                GetRaised e0 waiting errors = GetRaised e rest errors' <->
                exists bad frame,
                  f :: waiting = bad ++ frame :: rest /\
                  Forall (fun f => _decode_msg (take 4096 f)
                                   = Raise ValueError) bad /\
                  _decode_msg (take 4096 frame) = Raise e /\
                  e <> ValueError /\
                  errors' = errors ++ replicate (length bad) ValueError).
      { intros Hne. split.
        - intros [= <- <- <-]. exists [], f. cbn.
          rewrite app_nil_r. repeat split; auto.
        - intros (bad & frame & Hw & Hbad & Hraise & _ & ->).
          destruct bad as [|b bad]; cbn in Hw; injection Hw as <- ->.
          + rewrite Hf in Hraise. injection Hraise as <-.
            cbn. rewrite app_nil_r. reflexivity.
          + apply Forall_cons_1 in Hbad as [Hb _]. congruence. }
      destruct e0; try (apply Hother; discriminate).
      rewrite IH. split.
      * intros (bad & frame & -> & Hbad & Hraise & Hne & ->).
        exists (f :: bad), frame. cbn.
        rewrite <- app_assoc. repeat split; auto.
      * intros (bad & frame & Hw & Hbad & Hraise & Hne & ->).
        destruct bad as [|b bad]; cbn in Hw; injection Hw as <- ->;
          [congruence|].
        apply Forall_cons_1 in Hbad as [_ Hbad].
        exists bad, frame. cbn. rewrite <- app_assoc. repeat split; auto.
Qed.

(** From [put] on one socket to [get] on another: a message sent to the port
    of the receiving socket, in a frame of at most 4096 bytes without VLAN
    tag, passes the receiver's filter whole and is what [get] returns, after
    any undecodable frames queued before it. *)
Theorem put_get_loopback (self peer : AsyncDHCP4Socket)
  (msg : SentDHCPMessage) (src buf : list Z) (bad rest : list (list Z)) :
  (forall d b pre, dhcp4msg_encode d = Ok b ->
                   dhcp4msg_decode (pre ++ b) (length pre) = Ok d) ->
  sport msg = port self ->
  eth_src msg = Some src ->
  is_addr 6 src -> is_addr 6 (eth_dst msg) ->
  is_addr 4 (ip_src msg) -> is_addr 4 (ip_dst msg) ->
  0 <= sport msg < 65536 -> 0 <= dport msg < 65536 ->
  dhcp4msg_encode (payload_sent src (dhcp msg)) = Ok buf ->
  (42 + length buf <= 4096)%nat ->
  port peer = dport msg ->
  Forall (fun f => _decode_msg (take 4096 f) = Raise ValueError) bad ->
  exists frame,
    sent (sock_after (put self msg)) = sent self ++ [frame] /\
    handed peer (mkSkb false frame) = Some frame /\
    get (bad ++ frame :: rest) [] =
      Got (mkReceived (payload_sent src (dhcp msg)) src (eth_dst msg)
             (ip_src msg) (ip_dst msg) (sport msg) (dport msg))
        rest (replicate (length bad) ValueError).
Proof.
  intros Hlaw Hsport Hsrc Hsrca Hdsta Hipsa Hipda Hsp Hdp Henc Hsize Hpeer
    Hbad.
  assert (Hlen : IPV4_HEADER_SIZE + UDP_HEADER_SIZE + Z.of_nat (length buf)
                 < 65536) by (unfold IPV4_HEADER_SIZE, UDP_HEADER_SIZE; lia).
  pose proof (filled_set self msg src Hsrc Hsrca) as Hfilled.
  destruct (put_layout self msg src buf) as (ipcsum & udpcsum & Hasm);
    try assumption.
  destruct (assemble_decode self (set_dhcp (payload_sent src (dhcp msg)) msg)
              src buf) as (frame & Hasm' & Hdec);
    try assumption; [rewrite <- Hsport; assumption|].
  rewrite <- Hfilled, Hasm in Hasm'. injection Hasm' as Hframe.
  rewrite (put_filled self msg Hsport), Hasm, Hframe.
  cbn [dhcp eth_dst ip_src ip_dst dport set_dhcp] in Hdec.
  destruct (layout_fields (eth_dst msg) src (ip_src msg) (ip_dst msg)
              (20 + 8 + Z.of_nat (length buf)) ipcsum (port self) (dport msg)
              (8 + Z.of_nat (length buf)) udpcsum buf)
    as (H12 & H14 & H20 & H23 & H36 & Hlength & _);
    try (apply Hsrca || apply Hdsta || apply Hipsa || apply Hipda).
  rewrite Hframe in H12, H14, H20, H23, H36, Hlength.
  exists frame. split; [reflexivity|]. split.
  - unfold handed, attached_filter.
    rewrite run_filter_spec, u32_small by (rewrite Hpeer; lia).
    unfold filter_spec. cbn [vlan_tag_present data].
    rewrite H12, H23, H20, H14, !Z.eqb_refl. cbn [negb].
    change (Z.land 0 8191 =? 0) with true. cbn [negb].
    change (4 * Z.land 69 15 + 16) with 36.
    rewrite H36, Hpeer, Z.eqb_refl.
    change (Some (take (Z.to_nat accept_len) frame) = Some frame).
    rewrite take_ge by (unfold accept_len; lia). reflexivity.
  - apply get_skips_undecodable; [exact Hbad|].
    rewrite take_ge by lia. rewrite Hdec, Hsport. reflexivity.
Qed.

End SocketMore.

Section SocketExamples.
Import Engine DHCP4Socket Examples.

Lemma put_frame_handed_witness :
  exists frame,
    sent (sock_after (put sock0 discover)) = sent sock0 ++ [frame] /\
    handed server_sock (mkSkb false frame) =
      if negb false && (port server_sock =? dport discover)
      then Some (take (Z.to_nat accept_len) frame) else None.
Proof.
  apply (put_frame_handed sock0 server_sock discover mac_a
           (mac_a ++ [53; 1; 1; 255]) false).
  - reflexivity.
  - reflexivity.
  - split; reflexivity.
  - split; reflexivity.
  - split; reflexivity.
  - split; reflexivity.
  - cbn. lia.
  - cbn. lia.
  - reflexivity.
  - vm_compute. reflexivity.
  - cbn. lia.
Defined.

Lemma put_frame_lengths_witness :
  exists frame ip4 udp,
    sent (sock_after (put sock0 discover)) = sent sock0 ++ [frame] /\
    length frame = (14 + 20 + 8 + length (mac_a ++ [53; 1; 1; 255]%Z))%nat /\
    drop 42 frame = mac_a ++ [53; 1; 1; 255] /\
    ip4msg_decode frame 14 = Ok (ip4, 34%nat) /\
    udpmsg_decode frame 34 = Ok (udp, 42%nat) /\
    ip_len ip4 = Z.of_nat (length frame) - 14 /\
    udp_len udp = Z.of_nat (length frame) - 14 - 20 /\
    ip_proto ip4 = IPPROTO_UDP /\
    udp_sport udp = sport discover /\ udp_dport udp = dport discover.
Proof.
  apply (put_frame_lengths sock0 discover mac_a (mac_a ++ [53; 1; 1; 255])).
  - reflexivity.
  - reflexivity.
  - split; reflexivity.
  - split; reflexivity.
  - split; reflexivity.
  - split; reflexivity.
  - cbn. lia.
  - cbn. lia.
  - reflexivity.
  - vm_compute. reflexivity.
Defined.

Lemma put_autofill_witness :
  exists frame r,
    returned (put sock0 discover_anon) =
      Ok (msg_after (put sock0 discover_anon)) /\
    msg_after (put sock0 discover_anon) =
      mkSent (set_chaddr (l2addr sock0) (dhcp discover_anon))
        (Some (l2addr sock0)) (eth_dst discover_anon) (ip_src discover_anon)
        (ip_dst discover_anon) (sport discover_anon) (dport discover_anon) /\
    sent (sock_after (put sock0 discover_anon)) = sent sock0 ++ [frame] /\
    _decode_msg frame = Ok r /\
    r_eth_src r = l2addr sock0 /\
    r_dhcp r = set_chaddr (l2addr sock0) (dhcp discover_anon).
Proof.
  apply (put_autofill sock0 discover_anon (mac_a ++ [53; 1; 1; 255])).
  - apply payload_codec_roundtrip.
  - reflexivity.
  - reflexivity.
  - reflexivity.
  - split; reflexivity.
  - split; reflexivity.
  - split; reflexivity.
  - split; reflexivity.
  - cbn. lia.
  - cbn. lia.
  - reflexivity.
  - vm_compute. reflexivity.
Defined.

Lemma put_get_loopback_witness :
  exists frame,
    sent (sock_after (put sock0 discover)) = sent sock0 ++ [frame] /\
    handed server_sock (mkSkb false frame) = Some frame /\
    get ([[0x08; 0x00]] ++ frame :: [udp_frame 67 0]) [] =
      Got (mkReceived (payload_sent mac_a (dhcp discover)) mac_a
             (eth_dst discover) (ip_src discover) (ip_dst discover)
             (sport discover) (dport discover))
        [udp_frame 67 0] (replicate (length [[0x08; 0x00]]) ValueError).
Proof.
  apply (put_get_loopback sock0 server_sock discover mac_a
           (mac_a ++ [53; 1; 1; 255]) [[0x08; 0x00]] [udp_frame 67 0]).
  - apply payload_codec_roundtrip.
  - reflexivity.
  - reflexivity.
  - split; reflexivity.
  - split; reflexivity.
  - split; reflexivity.
  - split; reflexivity.
  - cbn. lia.
  - cbn. lia.
  - reflexivity.
  - cbn. lia.
  - reflexivity.
  - constructor; [reflexivity | constructor].
Defined.

End SocketExamples.
